(** * deep.Equal: a shallow embedding of [deep.go] and its properties

    The Go package [deep] walks two [reflect.Value]s in lockstep and collects
    a list of rendered differences.  The embedding below keeps the shape of
    the source: the [cmp] record with its [diff] and [buff] slices, the
    package-level configuration variables, the [reflect] accessors the code
    calls (with their panics), and the function [equals] with its loops,
    [break]s and early [return]s. *)

From Stdlib Require Import ZArith List String Ascii Bool Lia SpecFloat.
From Stdlib Require Import DecimalString.
Import ListNotations.
Open Scope string_scope.
Open Scope list_scope.
Open Scope Z_scope.

(** ** Outcomes of a Go computation

    A call either returns, or panics (a run-time panic of [reflect] or of an
    index expression).  [OutOfFuel] is the outcome of the embedding's own
    recursion bound; it is shown below never to be produced by [equals]. *)
Inductive res (A : Type) : Type :=
| Ok (x : A)
| Panic (msg : string)
| OutOfFuel.
Arguments Ok {A} x.
Arguments Panic {A} msg.
Arguments OutOfFuel {A}.

Definition bind {A B : Type} (m : res A) (k : A -> res B) : res B :=
  match m with
  | Ok x => k x
  | Panic msg => Panic msg
  | OutOfFuel => OutOfFuel
  end.

Notation "x <- m ;; k" := (bind m (fun x => k))
  (at level 61, m at next level, right associativity).

(** ** The part of package [reflect] that [deep.go] uses *)

Inductive Kind : Type :=
| KInvalid | KBool
| KInt | KInt8 | KInt16 | KInt32 | KInt64
| KUint | KUint8 | KUint16 | KUint32 | KUint64 | KUintptr
| KFloat32 | KFloat64 | KComplex64 | KComplex128
| KArray | KChan | KFunc | KInterface | KMap | KPtr | KSlice
| KString | KStruct | KUnsafePointer.

Definition Kind_eq_dec (x y : Kind) : {x = y} + {x <> y}.
Proof. decide equality. Defined.

Definition Kind_eqb (x y : Kind) : bool :=
  if Kind_eq_dec x y then true else false.

(** [Kind.String()]. *)
Definition Kind_String (k : Kind) : string :=
  match k with
  | KInvalid => "invalid" | KBool => "bool"
  | KInt => "int" | KInt8 => "int8" | KInt16 => "int16"
  | KInt32 => "int32" | KInt64 => "int64"
  | KUint => "uint" | KUint8 => "uint8" | KUint16 => "uint16"
  | KUint32 => "uint32" | KUint64 => "uint64" | KUintptr => "uintptr"
  | KFloat32 => "float32" | KFloat64 => "float64"
  | KComplex64 => "complex64" | KComplex128 => "complex128"
  | KArray => "array" | KChan => "chan" | KFunc => "func"
  | KInterface => "interface" | KMap => "map" | KPtr => "ptr"
  | KSlice => "slice" | KString => "string" | KStruct => "struct"
  | KUnsafePointer => "unsafe.Pointer"
  end.

(** The text of a [*reflect.ValueError]: the method that was called and
    the kind of the value it was called on. *)
Definition ValueError (method : string) (k : Kind) : string :=
  ("reflect: call of " ++ method ++ " on " ++ Kind_String k ++ " Value")%string.

(** A struct field as [reflect.StructField] describes it: [PkgPath] is empty
    for an exported field. *)
Record StructField : Type := mkField {
  Name : string;
  PkgPath : string
}.

Definition StructField_eq_dec (x y : StructField) : {x = y} + {x <> y}.
Proof. decide equality; apply string_dec. Defined.

(** A type descriptor.  Go compares [reflect.Type] values by the identity of
    the descriptor; [tyId] stands for its address, [tyString] is what
    [Type.String()] prints, [tyFields] the fields of a struct type. *)
Record rtype : Type := mkType {
  tyId : positive;
  tyString : string;
  tyKind : Kind;
  tyFields : list StructField
}.

Definition rtype_eq_dec (x y : rtype) : {x = y} + {x <> y}.
Proof.
  decide equality.
  - apply (list_eq_dec StructField_eq_dec).
  - apply Kind_eq_dec.
  - apply string_dec.
  - apply Pos.eq_dec.
Defined.

Definition rtype_eqb (x y : rtype) : bool :=
  if rtype_eq_dec x y then true else false.

(** A valid [reflect.Value].  Pointers hold an address into the heap (so
    that self-referential structures exist); maps and slices carry the
    address [Value.Pointer()] reports together with their contents, [None]
    being the nil map or nil slice.  [VOther] covers the kinds the
    comparison has no rule for (chan, func, unsafe pointer, complex,
    uintptr), with the address of a reference kind when it is not nil. *)
#[local] Set Warnings "-register-all".
Inductive Value : Type :=
| VBool (t : rtype) (b : bool)
| VInt (t : rtype) (i : Z)
| VUint (t : rtype) (u : Z)
| VFloat (t : rtype) (f : spec_float)
| VString (t : rtype) (s : string)
| VStruct (t : rtype) (fields : list Value)
| VArray (t : rtype) (elems : list Value)
| VMap (t : rtype) (m : option (positive * list (Value * Value)))
| VSlice (t : rtype) (s : option (positive * list Value))
| VPtr (t : rtype) (p : option positive)
| VIface (t : rtype) (e : option Value)
| VOther (t : rtype) (p : option positive).

(** The zero [reflect.Value] (what [reflect.ValueOf(nil)], [Elem] of a nil
    pointer and [MapIndex] of a missing key return) is [None]. *)
Definition rValue : Type := option Value.

Definition IsValid (v : rValue) : bool :=
  match v with Some _ => true | None => false end.

Definition TypeOfValue (v : Value) : rtype :=
  match v with
  | VBool t _ | VInt t _ | VUint t _ | VFloat t _ | VString t _
  | VStruct t _ | VArray t _ | VMap t _ | VSlice t _ | VPtr t _
  | VIface t _ | VOther t _ => t
  end.

(** [Value.Type] panics on the zero Value. *)
Definition Type_ (v : rValue) : res rtype :=
  match v with
  | Some x => Ok (TypeOfValue x)
  | None => Panic "reflect: call of reflect.Value.Type on zero Value"
  end.

(** [Value.Kind] returns [Invalid] on the zero Value. *)
Definition Kind_ (v : rValue) : Kind :=
  match v with
  | Some x => tyKind (TypeOfValue x)
  | None => KInvalid
  end.

Definition Bool_ (v : Value) : res bool :=
  match v with
  | VBool _ b => Ok b
  | _ => Panic (ValueError "reflect.Value.Bool" (tyKind (TypeOfValue v)))
  end.

Definition Int_ (v : Value) : res Z :=
  match v with
  | VInt _ i => Ok i
  | _ => Panic (ValueError "reflect.Value.Int" (tyKind (TypeOfValue v)))
  end.

Definition Uint_ (v : Value) : res Z :=
  match v with
  | VUint _ u => Ok u
  | _ => Panic (ValueError "reflect.Value.Uint" (tyKind (TypeOfValue v)))
  end.

Definition Float_ (v : Value) : res spec_float :=
  match v with
  | VFloat _ f => Ok f
  | _ => Panic (ValueError "reflect.Value.Float" (tyKind (TypeOfValue v)))
  end.

(** [Value.String] does not panic: on a non-string it returns the text
    ["<T Value>"]. *)
Definition String_ (v : Value) : string :=
  match v with
  | VString _ s => s
  | _ => ("<" ++ tyString (TypeOfValue v) ++ " Value>")%string
  end.

Definition IsNil (v : Value) : res bool :=
  match v with
  | VMap _ m => Ok (match m with None => true | Some _ => false end)
  | VSlice _ s => Ok (match s with None => true | Some _ => false end)
  | VPtr _ p => Ok (match p with None => true | Some _ => false end)
  | VIface _ e => Ok (match e with None => true | Some _ => false end)
  | VOther t p =>
      match tyKind t with
      | KChan | KFunc | KUnsafePointer =>
          Ok (match p with None => true | Some _ => false end)
      | _ => Panic (ValueError "reflect.Value.IsNil" (tyKind (TypeOfValue v)))
      end
  | _ => Panic (ValueError "reflect.Value.IsNil" (tyKind (TypeOfValue v)))
  end.

Definition addr_of {A : Type} (o : option (positive * A)) : Z :=
  match o with Some (p, _) => Zpos p | None => 0 end.

Definition Pointer (v : Value) : res Z :=
  match v with
  | VMap _ m => Ok (addr_of m)
  | VSlice _ s => Ok (addr_of s)
  | VPtr _ p => Ok (match p with Some q => Zpos q | None => 0 end)
  | VOther t p =>
      match tyKind t with
      | KChan | KFunc | KUnsafePointer =>
          Ok (match p with Some q => Zpos q | None => 0 end)
      | _ => Panic (ValueError "reflect.Value.Pointer" (tyKind (TypeOfValue v)))
      end
  | _ => Panic (ValueError "reflect.Value.Pointer" (tyKind (TypeOfValue v)))
  end.

Definition Len (v : Value) : res nat :=
  match v with
  | VSlice _ s => Ok (match s with Some (_, l) => List.length l | None => O end)
  | VArray _ l => Ok (List.length l)
  | VMap _ m => Ok (match m with Some (_, l) => List.length l | None => O end)
  | VString _ s => Ok (String.length s)
  | _ => Panic (ValueError "reflect.Value.Len" (tyKind (TypeOfValue v)))
  end.

Definition Index (v : Value) (i : nat) : res Value :=
  match v with
  | VSlice _ (Some (_, l)) =>
      match nth_error l i with
      | Some x => Ok x
      | None => Panic "reflect: slice index out of range"
      end
  | VSlice _ None => Panic "reflect: slice index out of range"
  | VArray _ l =>
      match nth_error l i with
      | Some x => Ok x
      | None => Panic "reflect: array index out of range"
      end
  | _ => Panic (ValueError "reflect.Value.Index" (tyKind (TypeOfValue v)))
  end.

Definition NumField (v : Value) : res nat :=
  match v with
  | VStruct t _ => Ok (List.length (tyFields t))
  | _ => Panic (ValueError "reflect.Value.NumField" (tyKind (TypeOfValue v)))
  end.

Definition Field (v : Value) (i : nat) : res Value :=
  match v with
  | VStruct _ fs =>
      match nth_error fs i with
      | Some x => Ok x
      | None => Panic "reflect: Field index out of range"
      end
  | _ => Panic (ValueError "reflect.Value.Field" (tyKind (TypeOfValue v)))
  end.

(** [Type.Field(i)] panics when [i] is out of range. *)
Definition TypeField (t : rtype) (i : nat) : res StructField :=
  match nth_error (tyFields t) i with
  | Some f => Ok f
  | None => Panic "reflect: Field index out of bounds"
  end.

(** Go's [==] on map keys, which [MapIndex] uses to find an entry: floats
    compare as IEEE numbers (a NaN equals nothing), an interface key by
    dynamic type and value.  All keys of one map have the map's key type. *)
Fixpoint key_eqb (x y : Value) : bool :=
  let fix all2 (xs ys : list Value) : bool :=
    match xs, ys with
    | [], [] => true
    | x' :: xs', y' :: ys' => key_eqb x' y' && all2 xs' ys'
    | _, _ => false
    end in
  match x, y with
  | VBool _ p, VBool _ q => Bool.eqb p q
  | VInt _ i, VInt _ j => i =? j
  | VUint _ i, VUint _ j => i =? j
  | VFloat _ f, VFloat _ g => SFeqb f g
  | VString _ s, VString _ r => String.eqb s r
  | VStruct _ fs, VStruct _ gs => all2 fs gs
  | VArray _ fs, VArray _ gs => all2 fs gs
  | VPtr _ None, VPtr _ None => true
  | VPtr _ (Some p), VPtr _ (Some q) => Pos.eqb p q
  | VIface _ None, VIface _ None => true
  | VIface _ (Some v), VIface _ (Some w) =>
      rtype_eqb (TypeOfValue v) (TypeOfValue w) && key_eqb v w
  | VOther _ None, VOther _ None => true
  | VOther _ (Some p), VOther _ (Some q) => Pos.eqb p q
  | _, _ => false
  end.

(** [Value.MapKeys]: the keys in the order the map yields them (Go leaves
    the order unspecified; it is the order of the entry list here). *)
Definition MapKeys (v : Value) : res (list Value) :=
  match v with
  | VMap _ (Some (_, es)) => Ok (map fst es)
  | VMap _ None => Ok []
  | _ => Panic (ValueError "reflect.Value.MapKeys" (tyKind (TypeOfValue v)))
  end.

Fixpoint lookup_key (key : Value) (es : list (Value * Value)) : rValue :=
  match es with
  | [] => None
  | (k, v) :: es' => if key_eqb k key then Some v else lookup_key key es'
  end.

(** [Value.MapIndex]: the zero Value when the key is absent.  (Go's
    [MapIndex] panics when the key's type is not assignable to the key
    type of the map, which [equals] can only meet with two maps of
    different types held by interfaces; the descriptors here do not
    record the key type, and the theorems about maps take two maps of one
    type.) *)
Definition MapIndex (v : Value) (key : Value) : res rValue :=
  match v with
  | VMap _ (Some (_, es)) => Ok (lookup_key key es)
  | VMap _ None => Ok None
  | _ => Panic (ValueError "reflect.Value.MapIndex" (tyKind (TypeOfValue v)))
  end.

(** ** Package-level variables, errors and the [cmp] struct *)

Record Config : Type := mkConfig {
  FloatPrecision : Z;
  MaxDiff : Z;
  MaxDepth : Z;
  LogErrors : bool;
  CompareUnexportedFields : bool
}.

(** The values the package declares. *)
Definition defaults : Config := mkConfig 10 10 10 false false.

Inductive error : Type :=
| ErrMaxRecursion
| ErrTypeMismatch
| ErrNotHandled.

(** [floatFormat] holds the precision of the format ["%.<n>f"]; [logged]
    is the sequence of errors [log.Println] has written so far. *)
Record cmp : Type := mkCmp {
  diff : list string;
  buff : list string;
  floatFormat : Z;
  logged : list error
}.

(** What [saveDiff] is handed as [interface{}] and prints with [%v]. *)
Inductive Operand : Type :=
| OType (t : rtype)
| OValue (v : rValue)
| OString (s : string)
| OFloat (f : spec_float)
| OBool (b : bool)
| OInt (i : Z)
| OUint (u : Z).

(** Package [fmt]: [%v] of an operand, [%s] of a map key, and ["%.<n>f"] of
    a float64. *)
Class Fmt : Type := mkFmt {
  Sprint_v : Operand -> string;
  Sprint_s : Value -> string;
  Sprintf_float : Z -> spec_float -> string
}.

(** A method value: called with its receiver and arguments, it returns its
    results ([inl]) or panics ([inr], also when [Value.Call] rejects the
    number or the types of the arguments).

    [Value.Call] also panics when the method value or an argument was
    obtained through an unexported struct field (the read-only flag of
    [reflect.Value]).  The values of this embedding carry no such flag:
    [Call] stands for calls on values reached through exported fields
    only, which is every call at level 0 and every call when
    [CompareUnexportedFields] is off (unexported fields are then never
    entered).  The theorems that conclude from the answer of a method
    say so in their hypotheses. *)
Definition Method : Type := Value -> list Value -> list Value + string.

Definition Call (m : Method) (recv : Value) (args : list Value)
  : res (list Value) :=
  match m recv args with
  | inl rets => Ok rets
  | inr msg => Panic msg
  end.

Definition len {A : Type} (l : list A) : Z := Z.of_nat (List.length l).

Definition isIndirect (k : Kind) : bool :=
  match k with KPtr | KInterface => true | _ => false end.

(** The outcome of a loop body that may [return] from the function. *)
Inductive flow : Type := Continue | Return.

Section Deep.

(** The package variables, the heap pointers point into, the method sets
    of the types ([methods t name] is the method [name] of type [t], if
    it has one), and package [fmt]. *)
Variable cfg : Config.
Variable heap : positive -> Value.
Variable methods : rtype -> string -> option Method.
Context {fmt : Fmt}.

Definition Elem (v : rValue) : res rValue :=
  match v with
  | Some (VPtr _ p) => Ok (option_map heap p)
  | Some (VIface _ e) => Ok e
  | Some x => Panic (ValueError "reflect.Value.Elem" (tyKind (TypeOfValue x)))
  | None => Panic "reflect: call of reflect.Value.Elem on zero Value"
  end.

Definition MethodByName (v : Value) (name : string) : option Method :=
  methods (TypeOfValue v) name.

Definition logError (c : cmp) (err : error) : cmp :=
  if LogErrors cfg
  then mkCmp (diff c) (buff c) (floatFormat c) (logged c ++ [err])
  else c.

Definition push (c : cmp) (name : string) : cmp :=
  mkCmp (diff c) (buff c ++ [name]) (floatFormat c) (logged c).

Definition pop (c : cmp) : cmp :=
  if 0 <? len (buff c)
  then mkCmp (diff c) (removelast (buff c)) (floatFormat c) (logged c)
  else c.

Definition saveDiff (c : cmp) (aval bval : Operand) : cmp :=
  if 0 <? len (buff c) then
    let varName := String.concat "." (buff c) in
    mkCmp (diff c ++ [(varName ++ ": " ++ Sprint_v aval ++ " != "
                                ++ Sprint_v bval)%string])
          (buff c) (floatFormat c) (logged c)
  else
    mkCmp (diff c ++ [(Sprint_v aval ++ " != " ++ Sprint_v bval)%string])
          (buff c) (floatFormat c) (logged c).

(** Lines 95-101 (and 102-108): a pointer or interface is replaced by
    what it holds; the type is updated only when that is a valid value. *)
Definition unwrap (a : rValue) (aKind : Kind) (aType : rtype)
  : res (rValue * Kind * rtype) :=
  if isIndirect aKind then
    a' <- Elem a ;;
    match a' with
    | Some x => Ok (a', Kind_ a', TypeOfValue x)
    | None => Ok (a', Kind_ a', aType)
    end
  else Ok (a, aKind, aType).

Definition first_result (retVals : list Value) : res Value :=
  match retVals with
  | r :: _ => Ok r
  | [] => Panic "runtime error: index out of range [0] with length 0"
  end.

(** The path segments [fmt.Sprintf("map[%s]", key)] and
    [fmt.Sprintf("slice[%d]", i)]. *)
Definition map_seg (key : Value) : string :=
  ("map[" ++ Sprint_s key ++ "]")%string.

Definition slice_seg (i : nat) : string :=
  ("slice[" ++ NilZero.string_of_uint (Nat.to_uint i) ++ "]")%string.

Section Loops.

(** The recursive call [c.equals(_, _, level+1)]. *)
Variable recurse : rValue -> rValue -> cmp -> res cmp.

(** Lines 147-167; [todo] counts the iterations that remain. *)
Fixpoint struct_loop (a b : Value) (aType : rtype) (todo i : nat)
         (c : cmp) : res cmp :=
  match todo with
  | O => Ok c
  | S todo' =>
      f <- TypeField aType i ;;
      if negb (String.eqb (PkgPath f) "")
         && negb (CompareUnexportedFields cfg)
      then struct_loop a b aType todo' (S i) c
      else
        let c := push c (Name f) in
        af <- Field a i ;;
        bf <- Field b i ;;
        c <- recurse (Some af) (Some bf) c ;;
        let c := pop c in
        if len (diff c) >=? MaxDiff cfg then Ok c
        else struct_loop a b aType todo' (S i) c
  end.

(** Lines 197-213. *)
Fixpoint map_loop_a (a b : Value) (keys : list Value) (c : cmp)
  : res (flow * cmp) :=
  match keys with
  | [] => Ok (Continue, c)
  | key :: keys' =>
      let c := push c (map_seg key) in
      aVal <- MapIndex a key ;;
      bVal <- MapIndex b key ;;
      c <- (if IsValid bVal then recurse aVal bVal c
            else Ok (saveDiff c (OValue aVal)
                              (OString "<does not have key>"))) ;;
      let c := pop c in
      if len (diff c) >=? MaxDiff cfg then Ok (Return, c)
      else map_loop_a a b keys' c
  end.

(** Lines 215-226. *)
Fixpoint map_loop_b (a b : Value) (keys : list Value) (c : cmp)
  : res cmp :=
  match keys with
  | [] => Ok c
  | key :: keys' =>
      aVal <- MapIndex a key ;;
      if IsValid aVal then map_loop_b a b keys' c
      else
        let c := push c (map_seg key) in
        bVal <- MapIndex b key ;;
        let c := saveDiff c (OString "<does not have key>")
                          (OValue bVal) in
        let c := pop c in
        if len (diff c) >=? MaxDiff cfg then Ok c
        else map_loop_b a b keys' c
  end.

(** Lines 247-260. *)
Fixpoint slice_loop (a b : Value) (aLen bLen : nat) (todo i : nat)
         (c : cmp) : res cmp :=
  match todo with
  | O => Ok c
  | S todo' =>
      let c := push c (slice_seg i) in
      c <- (if (i <? aLen)%nat && (i <? bLen)%nat then
              ai <- Index a i ;;
              bi <- Index b i ;;
              recurse (Some ai) (Some bi) c
            else if (i <? aLen)%nat then
              ai <- Index a i ;;
              Ok (saveDiff c (OValue (Some ai)) (OString "<no value>"))
            else
              bi <- Index b i ;;
              Ok (saveDiff c (OString "<no value>") (OValue (Some bi)))) ;;
      let c := pop c in
      if len (diff c) >=? MaxDiff cfg then Ok c
      else slice_loop a b aLen bLen todo' (S i) c
  end.

End Loops.

(** Lines 130-293: the switch on [aKind], for valid [a] and [b] whose
    type has no [Equal] method. *)
Definition dispatch (recurse : rValue -> rValue -> cmp -> res cmp)
           (a b : Value) (aKind : Kind) (aType : rtype) (c : cmp)
  : res cmp :=
  match aKind with
  | KStruct =>
      n <- NumField a ;;
      struct_loop recurse a b aType n 0%nat c
  | KMap =>
      aNil <- IsNil a ;;
      bNil <- IsNil b ;;
      if aNil || bNil then
        if aNil && negb bNil then
          Ok (saveDiff c (OString "<nil map>") (OValue (Some b)))
        else if negb aNil && bNil then
          Ok (saveDiff c (OValue (Some a)) (OString "<nil map>"))
        else Ok c
      else
        pa <- Pointer a ;;
        pb <- Pointer b ;;
        if pa =? pb then Ok c
        else
          aKeys <- MapKeys a ;;
          r <- map_loop_a recurse a b aKeys c ;;
          match r with
          | (Return, c) => Ok c
          | (Continue, c) =>
              bKeys <- MapKeys b ;;
              map_loop_b a b bKeys c
          end
  | KSlice =>
      aNil <- IsNil a ;;
      bNil <- IsNil b ;;
      if aNil || bNil then
        if aNil && negb bNil then
          Ok (saveDiff c (OString "<nil slice>") (OValue (Some b)))
        else if negb aNil && bNil then
          Ok (saveDiff c (OValue (Some a)) (OString "<nil slice>"))
        else Ok c
      else
        pa <- Pointer a ;;
        pb <- Pointer b ;;
        if pa =? pb then Ok c
        else
          aLen <- Len a ;;
          bLen <- Len b ;;
          let n := if (aLen <? bLen)%nat then bLen else aLen in
          slice_loop recurse a b aLen bLen n 0%nat c
  | KFloat32 | KFloat64 =>
      af <- Float_ a ;;
      bf <- Float_ b ;;
      let aval := Sprintf_float (floatFormat c) af in
      let bval := Sprintf_float (floatFormat c) bf in
      if negb (String.eqb aval bval)
      then Ok (saveDiff c (OFloat af) (OFloat bf))
      else Ok c
  | KBool =>
      x <- Bool_ a ;;
      y <- Bool_ b ;;
      if negb (Bool.eqb x y) then Ok (saveDiff c (OBool x) (OBool y))
      else Ok c
  | KInt | KInt8 | KInt16 | KInt32 | KInt64 =>
      x <- Int_ a ;;
      y <- Int_ b ;;
      if negb (x =? y) then Ok (saveDiff c (OInt x) (OInt y)) else Ok c
  | KUint | KUint8 | KUint16 | KUint32 | KUint64 =>
      x <- Uint_ a ;;
      y <- Uint_ b ;;
      if negb (x =? y) then Ok (saveDiff c (OUint x) (OUint y)) else Ok c
  | KString =>
      if negb (String.eqb (String_ a) (String_ b))
      then Ok (saveDiff c (OString (String_ a)) (OString (String_ b)))
      else Ok c
  | _ => Ok (logError c ErrNotHandled)
  end.

(** [func (c *cmp) equals(a, b reflect.Value, level int)].  The recursion
    is on [fuel], an upper bound of [MaxDepth - level + 1]: the depth
    guard of the first lines returns before [fuel] can run out. *)
Fixpoint equals_rec (fuel : nat) (a b : rValue) (level : Z) (c : cmp)
  : res cmp :=
  if level >? MaxDepth cfg then Ok (logError c ErrMaxRecursion)
  else
    match fuel with
    | O => OutOfFuel
    | S fuel' =>
        aType <- Type_ a ;;
        bType <- Type_ b ;;
        if negb (rtype_eqb aType bType) then
          Ok (logError (saveDiff c (OType aType) (OType bType))
                       ErrTypeMismatch)
        else
          ua <- unwrap a (Kind_ a) aType ;;
          ub <- unwrap b (Kind_ b) bType ;;
          let '(a, aKind, aType) := ua in
          let '(b, _, bType) := ub in
          match a, b with
          | Some _, None =>
              Ok (saveDiff c (OType aType) (OString "<nil pointer>"))
          | None, Some _ =>
              Ok (saveDiff c (OString "<nil pointer>") (OType bType))
          | None, None => Ok c
          | Some a, Some b =>
              match MethodByName a "Equal" with
              | Some eqFunc =>
                  retVals <- Call eqFunc a [b] ;;
                  r0 <- first_result retVals ;;
                  eq <- Bool_ r0 ;;
                  if negb eq
                  then Ok (saveDiff c (OValue (Some a)) (OValue (Some b)))
                  else Ok c
              | None =>
                  dispatch (fun x y => equals_rec fuel' x y (level + 1))
                           a b aKind aType c
              end
          end
    end.

Definition equals (a b : rValue) (level : Z) (c : cmp) : res cmp :=
  equals_rec (Z.to_nat (MaxDepth cfg - level + 1)) a b level c.

(** [func Equal(a, b interface{}) []string], on [reflect.ValueOf(a)] and
    [reflect.ValueOf(b)]; the nil result is the empty list. *)
Definition Equal (a b : rValue) : res (list string) :=
  let c := mkCmp [] [] (FloatPrecision cfg) [] in
  c <- equals a b 0 c ;;
  if 0 <? len (diff c) then Ok (diff c) else Ok [].

End Deep.

(** ** A concrete [fmt] for closed examples

    [format_fixed n f] is [fmt.Sprintf("%.<n>f", f)] on a float64: the exact
    binary value, correctly rounded (ties to even) to [n] fractional digits.
    (With a negative [FloatPrecision] the format string the source builds
    is malformed; the rendering is meant for precisions from 0 up.) *)

Definition itoa (z : Z) : string := NilZero.string_of_int (Z.to_int z).

Fixpoint zeros (n : nat) : string :=
  match n with
  | O => ""
  | S n' => String "0" (zeros n')
  end.

Definition pad_left (n : nat) (s : string) : string :=
  (zeros (n - String.length s) ++ s)%string.

(** [m * 2^e * 10^n] rounded to the nearest integer, ties to even. *)
Definition scaled_round (m : positive) (e : Z) (n : nat) : Z :=
  let num := Zpos m * 10 ^ Z.of_nat n in
  if 0 <=? e then num * 2 ^ e
  else
    let den := 2 ^ (- e) in
    let q := num / den in
    let r := num mod den in
    if (den <? 2 * r) || ((den =? 2 * r) && Z.odd q) then q + 1 else q.

Definition fixed_digits (q : Z) (n : nat) : string :=
  let p := 10 ^ Z.of_nat n in
  match n with
  | O => itoa q
  | S _ => (itoa (q / p) ++ "." ++ pad_left n (itoa (q mod p)))%string
  end.

Definition format_fixed (prec : Z) (f : spec_float) : string :=
  let n := Z.to_nat prec in
  match f with
  | S754_nan => "NaN"
  | S754_infinity false => "+Inf"
  | S754_infinity true => "-Inf"
  | S754_zero s => ((if s then "-" else "") ++ fixed_digits 0 n)%string
  | S754_finite s m e =>
      ((if s then "-" else "") ++ fixed_digits (scaled_round m e n) n)%string
  end.

(** [%v] on the operands whose rendering is a line of [fmt]'s code: a type
    prints its name, a string itself, a bool and an integer their literal,
    a [reflect.Value] what it holds.  Composite values and [%v] of a float
    (shortest round-trip digits) are outside this fragment and are shown
    by their type in angle brackets. *)
Definition show_value (v : rValue) : string :=
  match v with
  | None => "<invalid reflect.Value>"
  | Some (VBool _ b) => if b then "true" else "false"
  | Some (VInt _ i) => itoa i
  | Some (VUint _ u) => itoa u
  | Some (VString _ s) => s
  | Some x => ("<" ++ tyString (TypeOfValue x) ++ ">")%string
  end.

Definition show_operand (o : Operand) : string :=
  match o with
  | OType t => tyString t
  | OValue v => show_value v
  | OString s => s
  | OFloat _ => "<float64>"
  | OBool b => if b then "true" else "false"
  | OInt i => itoa i
  | OUint u => itoa u
  end.

(** [%s] of a map key: a string key prints itself, any other kind is the
    bad-verb form [%!s(T=v)]. *)
Definition show_key (k : Value) : string :=
  match k with
  | VString _ s => s
  | _ => ("%!s(" ++ tyString (TypeOfValue k) ++ "=" ++ show_value (Some k)
                 ++ ")")%string
  end.

Definition goFmt : Fmt := mkFmt show_operand show_key format_fixed.

(** Types and values of the examples. *)
Definition tInt : rtype := mkType 1 "int" KInt [].
Definition tString : rtype := mkType 2 "string" KString [].
Definition tFloat64 : rtype := mkType 3 "float64" KFloat64 [].
Definition tMapStringInt : rtype := mkType 4 "map[string]int" KMap [].
Definition tSliceInt : rtype := mkType 5 "[]int" KSlice [].

Definition no_methods : rtype -> string -> option Method :=
  fun _ _ => None.

(** A heap of one cell type: every address holds the integer 0. *)
Definition flat_heap : positive -> Value := fun _ => VInt tInt 0.

(** The float64 values of the literals 0.1, 0.2 and 0.3, and float64
    addition. *)
Definition f64_0_1 : spec_float := S754_finite false 7205759403792794 (-56).
Definition f64_0_2 : spec_float := S754_finite false 7205759403792794 (-55).
Definition f64_0_3 : spec_float := S754_finite false 5404319552844595 (-54).
Definition f64_add (x y : spec_float) : spec_float := SFadd 53 1024 x y.

(** ** Well-formed values

    In Go the kind of a value is the kind of its type, a struct value has
    the fields its type declares, and an interface never holds another
    interface.  [wf] says so for a value of the embedding. *)
Definition ctor_matches_kind (v : Value) : bool :=
  match v, tyKind (TypeOfValue v) with
  | VBool _ _, KBool => true
  | VInt _ _, (KInt | KInt8 | KInt16 | KInt32 | KInt64) => true
  | VUint _ _, (KUint | KUint8 | KUint16 | KUint32 | KUint64 | KUintptr) => true
  | VFloat _ _, (KFloat32 | KFloat64) => true
  | VString _ _, KString => true
  | VStruct _ _, KStruct => true
  | VArray _ _, KArray => true
  | VMap _ _, KMap => true
  | VSlice _ _, KSlice => true
  | VPtr _ _, KPtr => true
  | VIface _ _, KInterface => true
  | VOther _ _, (KChan | KFunc | KUnsafePointer | KComplex64 | KComplex128) => true
  | _, _ => false
  end.

Fixpoint wf (v : Value) : bool :=
  ctor_matches_kind v &&
  match v with
  | VStruct t fs =>
      (List.length fs =? List.length (tyFields t))%nat && forallb wf fs
  | VArray _ es => forallb wf es
  | VMap _ (Some (_, es)) =>
      forallb (fun kv : Value * Value => let (k, x) := kv in wf k && wf x) es
  | VSlice _ (Some (_, es)) => forallb wf es
  | VIface _ (Some x) => wf x && negb (Kind_eqb (tyKind (TypeOfValue x)) KInterface)
  | _ => true
  end.

(** ** What a run of [equals] does to the [cmp] struct *)

(** [c'] is [c] after some calls of [saveDiff] and [logError] between
    balanced [push]es and [pop]s: the path and the format are the same, the
    differences of [c] are a prefix, and the list has not grown past the
    cap [M] if it was below it. *)
Definition extends (M : Z) (c c' : cmp) : Prop :=
  buff c' = buff c /\
  floatFormat c' = floatFormat c /\
  (exists ext, diff c' = diff c ++ ext) /\
  (len (diff c) < M -> len (diff c') <= M).

Definition sound (M : Z) (c : cmp) (r : res cmp) : Prop :=
  match r with
  | Ok c' => extends M c c'
  | Panic _ => True
  | OutOfFuel => False
  end.

(** [c'] is [c] up to the log: nothing was recorded. *)
Definition quiet (c c' : cmp) : Prop :=
  diff c' = diff c /\ buff c' = buff c /\ floatFormat c' = floatFormat c.

(** A self-referential list: [type Node struct { Val int; Next *Node }].
    Cell 1 of [cyclic_heap] is a node of value 1 whose [Next] points to
    itself; every other cell is such a node of value 2 pointing to cell 2. *)
Definition tNode : rtype :=
  mkType 10 "deep.Node" KStruct [mkField "Val" ""; mkField "Next" ""].
Definition tPtrNode : rtype := mkType 11 "*deep.Node" KPtr [].

Definition cyclic_heap : positive -> Value :=
  fun p =>
    match p with
    | 1%positive => VStruct tNode [VInt tInt 1; VPtr tPtrNode (Some 1%positive)]
    | _ => VStruct tNode [VInt tInt 2; VPtr tPtrNode (Some 2%positive)]
    end.

(** [[]interface{}] and [interface{}], for values of different dynamic
    type behind one static type. *)
Definition tIface : rtype := mkType 12 "interface {}" KInterface [].
Definition tSliceIface : rtype := mkType 13 "[]interface {}" KSlice [].


(** ** Leaves and flat records

    A leaf pair is two values of one type, of a kind with a primitive rule
    in the switch of [equals] and without an [Equal] method;
    [leaf_differs] is the test that rule makes. *)
Definition is_leaf_kind (k : Kind) : bool :=
  match k with
  | KBool | KInt | KInt8 | KInt16 | KInt32 | KInt64
  | KUint | KUint8 | KUint16 | KUint32 | KUint64
  | KFloat32 | KFloat64 | KString => true
  | _ => false
  end.

Definition no_Equal (methods : rtype -> string -> option Method)
           (t : rtype) : bool :=
  match methods t "Equal" with None => true | Some _ => false end.

Definition leaf_pair (methods : rtype -> string -> option Method)
           (x y : Value) : bool :=
  rtype_eqb (TypeOfValue x) (TypeOfValue y)
  && is_leaf_kind (tyKind (TypeOfValue x))
  && ctor_matches_kind x && ctor_matches_kind y
  && no_Equal methods (TypeOfValue x).

Definition leaf_differs {fmt : Fmt} (prec : Z) (x y : Value) : bool :=
  match x, y with
  | VBool _ p, VBool _ q => negb (Bool.eqb p q)
  | VInt _ i, VInt _ j => negb (i =? j)
  | VUint _ i, VUint _ j => negb (i =? j)
  | VFloat _ f, VFloat _ g =>
      negb (String.eqb (Sprintf_float prec f) (Sprintf_float prec g))
  | VString _ s, VString _ r => negb (String.eqb s r)
  | _, _ => false
  end.

Definition leaf_operand (v : Value) : Operand :=
  match v with
  | VBool _ b => OBool b
  | VInt _ i => OInt i
  | VUint _ u => OUint u
  | VFloat _ f => OFloat f
  | VString _ s => OString s
  | _ => OValue (Some v)
  end.

(** The fields the struct loop does not skip. *)
Definition visible (cfg : Config) (f : StructField) : bool :=
  String.eqb (PkgPath f) "" || CompareUnexportedFields cfg.


Fixpoint leaf_pairs (methods : rtype -> string -> option Method)
         (xs ys : list Value) : bool :=
  match xs, ys with
  | [], [] => true
  | x :: xs', y :: ys' => leaf_pair methods x y && leaf_pairs methods xs' ys'
  | _, _ => false
  end.


(** ** Conditions of reflexivity

    Every heap cell holds a well-formed value. *)
Definition wf_heap (heap : positive -> Value) : Prop :=
  forall p, wf (heap p) = true.

(** [reflexive_walk n ro x]: in the walk of [x] against itself over [n]
    levels, every [Equal] method that is called answers [true] on its
    receiver and is reached through exported fields only ([ro] says that
    an unexported field was entered on the way: [Value.Call] refuses a
    value obtained through one).  The walk is the one [equals] makes: the value
    is unwrapped; a method, if the type has one, decides; otherwise only
    a struct is entered, by its visited fields (a map or a slice
    compared with itself is not walked). *)
Fixpoint reflexive_walk (cfg : Config) (heap : positive -> Value)
         (methods : rtype -> string -> option Method)
         (n : nat) (ro : bool) (x : Value) : Prop :=
  match n with
  | O => True
  | S n' =>
      match unwrap heap (Some x) (Kind_ (Some x)) (TypeOfValue x) with
      | Ok (Some v, _, _) =>
          match methods (TypeOfValue v) "Equal" with
          | Some m =>
              ro = false
              /\ exists r rest, m v [v] = inl (r :: rest) /\ Bool_ r = Ok true
          | None =>
              match v with
              | VStruct t fs =>
                  forall i f fx,
                    nth_error (tyFields t) i = Some f ->
                    visible cfg f = true ->
                    nth_error fs i = Some fx ->
                    reflexive_walk cfg heap methods n'
                      (ro || negb (PkgPath f =? "")%string) fx
              | _ => True
              end
          end
      | _ => True
      end
  end.


(** ** Expected records of sequences and maps *)

Definition indexed {A : Type} (i : nat) (l : list A) : list (nat * A) :=
  combine (seq i (List.length l)) l.

(** The record of an element at index [i] that only the left (only the
    right) slice has, at the root path. *)
Definition left_only_record {fmt : Fmt} (ix : nat * Value) : string :=
  let (i, x) := ix in
  (slice_seg i ++ ": " ++ Sprint_v (OValue (Some x)) ++ " != "
             ++ Sprint_v (OString "<no value>"))%string.

Definition right_only_record {fmt : Fmt} (ix : nat * Value) : string :=
  let (i, y) := ix in
  (slice_seg i ++ ": " ++ Sprint_v (OString "<no value>") ++ " != "
             ++ Sprint_v (OValue (Some y)))%string.

(** One record for each element beyond the length of the shorter slice. *)
Definition trailing_records {fmt : Fmt} (la lb : list Value) : list string :=
  let m := Nat.min (List.length la) (List.length lb) in
  map left_only_record (indexed m (skipn m la))
  ++ map right_only_record (indexed m (skipn m lb)).


(** The keys of [ea] that [MapIndex] does not find in [eb], in the order
    of [ea], and the records of a key that only the left (only the right)
    map has, at the root path. *)
Definition missing_in (es : list (Value * Value)) (key : Value) : bool :=
  negb (IsValid (lookup_key key es)).

Definition only_in (ea eb : list (Value * Value)) : list Value :=
  filter (missing_in eb) (map fst ea).

Definition left_key_record {fmt : Fmt} (ea : list (Value * Value))
           (key : Value) : string :=
  (map_seg key ++ ": " ++ Sprint_v (OValue (lookup_key key ea)) ++ " != "
           ++ Sprint_v (OString "<does not have key>"))%string.

Definition right_key_record {fmt : Fmt} (eb : list (Value * Value))
           (key : Value) : string :=
  (map_seg key ++ ": " ++ Sprint_v (OString "<does not have key>") ++ " != "
           ++ Sprint_v (OValue (lookup_key key eb)))%string.

(** What the records [ext] that the first loop adds for [key] must be: the
    one record against ["<does not have key>"] when the right map lacks
    the key; nothing when both maps hold the same well-formed value under
    it and the walk of that value (one level down) is reflexive. *)
Definition key_contribution {fmt : Fmt} (cfg : Config)
           (heap : positive -> Value)
           (methods : rtype -> string -> option Method)
           (ea eb : list (Value * Value)) (key : Value)
           (ext : list string) : Prop :=
  (lookup_key key eb = None -> ext = [left_key_record ea key])
  /\ (forall v,
         lookup_key key ea = Some v ->
         lookup_key key eb = Some v ->
         wf v = true ->
         reflexive_walk cfg heap methods (Z.to_nat (MaxDepth cfg)) false v ->
         ext = []).


(** ** Further types and values of the examples *)

Definition tBool : rtype := mkType 6 "bool" KBool [].
Definition tPtrInt : rtype := mkType 7 "*int" KPtr [].
Definition tArray2Int : rtype := mkType 14 "[2]int" KArray [].

(** [type Never int] with [func (Never) Equal(Never) bool { return false }]. *)
Definition tNever : rtype := mkType 8 "deep.Never" KInt [].

Definition always_false : Method := fun _ _ => inl [VBool tBool false].

Definition never_methods : rtype -> string -> option Method :=
  fun t name =>
    if rtype_eqb t tNever && String.eqb name "Equal"
    then Some always_false else None.

(** [type Triple struct { A, B, C int }]. *)
Definition tTriple : rtype :=
  mkType 9 "deep.Triple" KStruct
         [mkField "A" ""; mkField "B" ""; mkField "C" ""].

Definition ints (l : list Z) : list Value := map (VInt tInt) l.

Definition map_ab : list (Value * Value) :=
  [(VString tString "a", VInt tInt 1); (VString tString "b", VInt tInt 2)].
Definition map_a : list (Value * Value) :=
  [(VString tString "a", VInt tInt 1)].

Definition empty_cmp (cfg : Config) : cmp :=
  mkCmp [] [] (FloatPrecision cfg) [].


(** ** Kinds with and without a rule *)

(** The kinds that have a case in the switch of [equals]. *)
Definition has_rule (k : Kind) : bool :=
  match k with
  | KStruct | KMap | KSlice => true
  | _ => is_leaf_kind k
  end.

Definition is_int_kind (k : Kind) : bool :=
  match k with
  | KInt | KInt8 | KInt16 | KInt32 | KInt64 => true
  | _ => false
  end.


(** ** Expected records of a struct with leaf fields *)

(** The record of field [f] at the root path. *)
Definition field_record {fmt : Fmt} (f : StructField) (x y : Value) : string :=
  (Name f ++ ": " ++ Sprint_v (leaf_operand x) ++ " != "
          ++ Sprint_v (leaf_operand y))%string.

(** One record for each visited field whose two values differ, in the
    order of declaration. *)
Fixpoint field_records {fmt : Fmt} (cfg : Config) (prec : Z)
         (fs : list StructField) (xs ys : list Value) : list string :=
  match fs, xs, ys with
  | f :: fs', x :: xs', y :: ys' =>
      (if visible cfg f && leaf_differs prec x y
       then [field_record f x y] else [])
      ++ field_records cfg prec fs' xs' ys'
  | _, _, _ => []
  end.

(** Both structs have a value for each field, and the visited fields
    hold leaf pairs. *)
Fixpoint fields_are_leaves (cfg : Config)
         (methods : rtype -> string -> option Method)
         (fs : list StructField) (xs ys : list Value) : bool :=
  match fs, xs, ys with
  | [], [], [] => true
  | f :: fs', x :: xs', y :: ys' =>
      (negb (visible cfg f) || leaf_pair methods x y)
      && fields_are_leaves cfg methods fs' xs' ys'
  | _, _, _ => false
  end.


(** ** Expected records of maps with leaf values *)

Definition value_record {fmt : Fmt} (key va vb : Value) : string :=
  (map_seg key ++ ": " ++ Sprint_v (leaf_operand va) ++ " != "
           ++ Sprint_v (leaf_operand vb))%string.

(** What the first loop records for one key of the left map. *)
Definition key_records {fmt : Fmt} (prec : Z)
           (ea eb : list (Value * Value)) (key : Value) : list string :=
  match lookup_key key eb with
  | Some vb =>
      match lookup_key key ea with
      | Some va =>
          if leaf_differs prec va vb then [value_record key va vb] else []
      | None => []
      end
  | None => [left_key_record ea key]
  end.

Definition map_records {fmt : Fmt} (prec : Z)
           (ea eb : list (Value * Value)) : list string :=
  flat_map (key_records prec ea eb) (map fst ea)
  ++ map (right_key_record eb) (only_in eb ea).

(** Under every key found on both sides the two values are a leaf pair. *)
Definition common_leaf (methods : rtype -> string -> option Method)
           (ea eb : list (Value * Value)) (key : Value) : bool :=
  match lookup_key key eb with
  | None => true
  | Some vb =>
      match lookup_key key ea with
      | Some va => leaf_pair methods va vb
      | None => false
      end
  end.


(** ** Expected records of slices with leaf elements *)

Definition element_record {fmt : Fmt} (i : nat) (x y : Value) : string :=
  (slice_seg i ++ ": " ++ Sprint_v (leaf_operand x) ++ " != "
             ++ Sprint_v (leaf_operand y))%string.

(** One record for each index, from [i] on, at which both slices have an
    element and the two differ. *)
Fixpoint common_records {fmt : Fmt} (prec : Z) (i : nat)
         (xs ys : list Value) : list string :=
  match xs, ys with
  | x :: xs', y :: ys' =>
      (if leaf_differs prec x y then [element_record i x y] else [])
      ++ common_records prec (S i) xs' ys'
  | _, _ => []
  end.

Definition slice_records {fmt : Fmt} (prec : Z) (la lb : list Value)
  : list string :=
  common_records prec 0 la lb ++ trailing_records la lb.


(** ** More types and values of the examples *)

Definition tInt64 : rtype := mkType 15 "int64" KInt64 [].

(** [type Person struct { Name string; Age int }]. *)
Definition tPerson : rtype :=
  mkType 16 "deep.Person" KStruct [mkField "Name" ""; mkField "Age" ""].

(** [type hidden struct { n int }], declared in package [deep]. *)
Definition tHidden : rtype :=
  mkType 17 "deep.hidden" KStruct [mkField "n" "deep"].

(** [type Stamp int] with
    [func (s Stamp) Equal(o Stamp) bool { return s == o }], and
    [type Event struct { At Stamp; Name string }]. *)
Definition tStamp : rtype := mkType 18 "deep.Stamp" KInt [].

Definition stamp_equal : Method :=
  fun recv args =>
    match recv, args with
    | VInt _ i, [VInt _ j] => inl [VBool tBool (i =? j)]
    | _, _ => inr "reflect: Call with wrong arguments"%string
    end.

Definition stamp_methods : rtype -> string -> option Method :=
  fun t name =>
    if rtype_eqb t tStamp && String.eqb name "Equal"
    then Some stamp_equal else None.

Definition tEvent : rtype :=
  mkType 19 "deep.Event" KStruct [mkField "At" ""; mkField "Name" ""].

Definition launch : Value :=
  VStruct tEvent [VInt tStamp 7; VString tString "launch"].

(** [map[string]Never] with one entry, twice. *)
Definition tMapStringNever : rtype :=
  mkType 20 "map[string]deep.Never" KMap [].
Definition map_never : list (Value * Value) :=
  [(VString tString "k", VInt tNever 1)].

Definition map_abe : list (Value * Value) :=
  [(VString tString "a", VInt tInt 1); (VString tString "b", VInt tInt 2);
   (VString tString "e", VInt tInt 5)].
Definition map_ace : list (Value * Value) :=
  [(VString tString "a", VInt tInt 3); (VString tString "c", VInt tInt 4);
   (VString tString "e", VInt tInt 5)].

Definition map_ac : list (Value * Value) :=
  [(VString tString "a", VInt tInt 3); (VString tString "c", VInt tInt 4)].

(** A comparison in progress: one difference found, inside field [p]. *)
Definition busy_cmp : cmp := mkCmp ["x"%string] ["p"%string] 10 [].


(** ** States and outcomes up to the log *)

Definition same_but_log (c1 c2 : cmp) : Prop :=
  diff c1 = diff c2 /\ buff c1 = buff c2 /\ floatFormat c1 = floatFormat c2.

Definition agree (r1 r2 : res cmp) : Prop :=
  match r1, r2 with
  | Ok c1, Ok c2 => same_but_log c1 c2
  | Panic m1, Panic m2 => m1 = m2
  | OutOfFuel, OutOfFuel => True
  | _, _ => False
  end.

Definition agree_flow (r1 r2 : res (flow * cmp)) : Prop :=
  match r1, r2 with
  | Ok (f1, c1), Ok (f2, c2) => f1 = f2 /\ same_but_log c1 c2
  | Panic m1, Panic m2 => m1 = m2
  | OutOfFuel, OutOfFuel => True
  | _, _ => False
  end.


(** * Properties *)

Section Properties.

Variable cfg : Config.
Variable heap : positive -> Value.
Variable methods : rtype -> string -> option Method.
Context {fmt : Fmt}.

Let M : Z := MaxDiff cfg.

(** *** The accumulator *)

Lemma len_app {A : Type} (l l' : list A) : len (l ++ l') = len l + len l'.
Proof. unfold len. rewrite length_app. lia. Qed.

Lemma len_nonneg {A : Type} (l : list A) : 0 <= len l.
Proof. unfold len. lia. Qed.

Lemma extends_refl (c : cmp) : extends M c c.
Proof.
  repeat split; trivial.
  - exists []. now rewrite app_nil_r.
  - lia.
Qed.

Lemma saveDiff_fields (c : cmp) (x y : Operand) :
  exists s, diff (saveDiff c x y) = diff c ++ [s] /\
            buff (saveDiff c x y) = buff c /\
            floatFormat (saveDiff c x y) = floatFormat c /\
            logged (saveDiff c x y) = logged c.
Proof.
  unfold saveDiff. destruct (0 <? len (buff c)); eexists; simpl; eauto.
Qed.

Lemma extends_saveDiff (c : cmp) (x y : Operand) :
  extends M c (saveDiff c x y).
Proof.
  destruct (saveDiff_fields c x y) as (s & Hd & Hb & Hf & _).
  repeat split; trivial.
  - now exists [s].
  - rewrite Hd. unfold len. rewrite length_app. simpl. lia.
Qed.

Lemma logError_fields (c : cmp) (e : error) :
  diff (logError cfg c e) = diff c /\
  buff (logError cfg c e) = buff c /\
  floatFormat (logError cfg c e) = floatFormat c.
Proof. unfold logError. destruct (LogErrors cfg); simpl; auto. Qed.

Lemma extends_logError (c c' : cmp) (e : error) :
  extends M c c' -> extends M c (logError cfg c' e).
Proof.
  destruct (logError_fields c' e) as (Hd & Hb & Hf).
  unfold extends. rewrite Hd, Hb, Hf. trivial.
Qed.

Lemma pop_after_push (c c1 : cmp) (name : string) :
  buff c1 = buff c ++ [name] ->
  buff (pop c1) = buff c /\ diff (pop c1) = diff c1 /\
  floatFormat (pop c1) = floatFormat c1 /\ logged (pop c1) = logged c1.
Proof.
  intros Hb. unfold pop. rewrite Hb, len_app.
  assert (H : (0 <? len (buff c) + len [name]) = true).
  { apply Z.ltb_lt. unfold len. simpl. lia. }
  rewrite H. simpl. now rewrite removelast_last.
Qed.

(** One iteration of a loop: the body ran from [push c name] to [c1], the
    segment is popped, and the rest of the loop runs from there unless the
    cap is reached. *)
Lemma sound_iteration (c c1 : cmp) (name : string) (rest : res cmp) :
  extends M (push c name) c1 ->
  (len (diff (pop c1)) < M -> sound M (pop c1) rest) ->
  sound M c (if len (diff (pop c1)) >=? M then Ok (pop c1) else rest).
Proof.
  intros (Hb & Hf & (ext & Hd) & Hcap) Hrest.
  simpl in Hb, Hf, Hd, Hcap.
  destruct (pop_after_push c c1 name Hb) as (Pb & Pd & Pf & _).
  destruct (Z.geb_spec (len (diff (pop c1))) M) as [Hge | Hlt].
  - simpl. repeat split; try congruence.
    + exists ext. congruence.
    + rewrite Pd. exact Hcap.
  - specialize (Hrest Hlt). destruct rest as [c2 | msg | ]; simpl in *; trivial.
    destruct Hrest as (Rb & Rf & (ext2 & Rd) & Rcap).
    repeat split; try congruence.
    + exists (ext ++ ext2). rewrite Rd, Pd, Hd. now rewrite app_assoc.
    + intros _. apply Rcap. exact Hlt.
Qed.

Lemma extends_stop (c c1 : cmp) (name : string) :
  extends M (push c name) c1 -> extends M c (pop c1).
Proof.
  intros (Hb & Hf & (ext & Hd) & Hcap). simpl in Hb, Hf, Hd, Hcap.
  destruct (pop_after_push c c1 name Hb) as (Pb & Pd & Pf & _).
  repeat split; try congruence.
  - exists ext. congruence.
  - rewrite Pd. exact Hcap.
Qed.

Lemma extends_step (c c1 c2 : cmp) :
  extends M c c1 -> len (diff c1) < M -> extends M c1 c2 -> extends M c c2.
Proof.
  intros (Hb & Hf & (ext & Hd) & Hcap) Hlt (Rb & Rf & (ext2 & Rd) & Rcap).
  repeat split; try congruence.
  - exists (ext ++ ext2). rewrite Rd, Hd. now rewrite app_assoc.
  - intros _. now apply Rcap.
Qed.

(** *** The accessors of [reflect] return or panic *)

Ltac crush_acc E :=
  unfold TypeField, Field, NumField, IsNil, Pointer, MapKeys, MapIndex, Len,
    Index, Float_, Bool_, Int_, Uint_, Type_, Elem, Call, first_result in E;
  repeat match type of E with
         | context [match ?x with _ => _ end] => destruct x
         end;
  discriminate E.

Ltac step :=
  match goal with
  | |- sound _ _ (bind ?m _) =>
      let E := fresh "E" in
      destruct m as [? | ? | ] eqn:E; simpl;
      [ | exact I | exfalso; crush_acc E ]
  | |- sound _ _ (if ?b then _ else _) => destruct b eqn:?
  end.

Ltac leaf :=
  simpl; auto using extends_refl, extends_saveDiff, extends_logError.

Section LoopSoundness.

Variable recurse : rValue -> rValue -> cmp -> res cmp.
Hypothesis recurse_sound : forall x y c, sound M c (recurse x y c).

Lemma struct_loop_sound (a b : Value) (t : rtype) :
  forall todo i c, sound M c (struct_loop cfg recurse a b t todo i c).
Proof.
  induction todo as [| todo IH]; intros i c; simpl.
  - apply extends_refl.
  - step. step; [apply IH |]. step. step.
    pose proof (recurse_sound (Some x0) (Some x1) (push c (Name x))) as Hr.
    destruct (recurse _ _ _) as [c1 | msg | ]; simpl in *; trivial.
    apply sound_iteration with (name := Name x);
      [exact Hr | intros _; apply IH].
Qed.

Lemma slice_loop_sound (a b : Value) (aLen bLen : nat) :
  forall todo i c, sound M c (slice_loop cfg recurse a b aLen bLen todo i c).
Proof.
  induction todo as [| todo IH]; intros i c; simpl.
  - apply extends_refl.
  - match goal with |- context [push c ?n] => set (name := n) end.
    match goal with
    | |- sound _ _ (bind ?body _) =>
        assert (Hbody : sound M (push c name) body)
    end.
    { destruct ((i <? aLen)%nat && (i <? bLen)%nat).
      - step. step. apply recurse_sound.
      - destruct (i <? aLen)%nat; step; leaf. }
    match goal with
    | |- sound _ _ (bind ?body _) => destruct body as [c1 | msg | ]
    end; simpl in *; trivial.
    apply sound_iteration with (name := name);
      [exact Hbody | intros _; apply IH].
Qed.

Lemma map_loop_b_sound (a b : Value) :
  forall keys c, sound M c (map_loop_b cfg a b keys c).
Proof.
  induction keys as [| key keys IH]; intros c; simpl.
  - apply extends_refl.
  - step. destruct (IsValid x); [apply IH |]. step.
    match goal with
    | |- context [pop (saveDiff (push c ?n) ?x ?y)] =>
        apply (sound_iteration c (saveDiff (push c n) x y) n)
    end.
    + apply extends_saveDiff.
    + intros _. apply IH.
Qed.

Lemma map_loop_a_sound (a b : Value) :
  forall keys c,
    match map_loop_a cfg recurse a b keys c with
    | Ok (fl, c') =>
        extends M c c' /\
        (fl = Continue -> len (diff c) < M -> len (diff c') < M)
    | Panic _ => True
    | OutOfFuel => False
    end.
Proof.
  induction keys as [| key keys IH]; intros c; simpl.
  - split; [apply extends_refl | trivial].
  - match goal with |- context [push c ?n] => set (name := n) end.
    destruct (MapIndex a key) as [aVal | | ] eqn:Ea; simpl; trivial;
      [ | crush_acc Ea ].
    destruct (MapIndex b key) as [bVal | | ] eqn:Eb; simpl; trivial;
      [ | crush_acc Eb ].
    match goal with
    | |- context [bind ?body _] =>
        assert (Hbody : sound M (push c name) body)
    end.
    { destruct (IsValid bVal); [apply recurse_sound | leaf]. }
    match goal with
    | |- context [bind ?body _] => destruct body as [c1 | msg | ]
    end; simpl in *; trivial.
    pose proof (extends_stop c c1 name Hbody) as Hstop.
    destruct (Z.geb_spec (len (diff (pop c1))) (MaxDiff cfg)) as [Hge | Hlt].
    + split; [exact Hstop | discriminate].
    + specialize (IH (pop c1)).
      destruct (map_loop_a cfg recurse a b keys (pop c1))
        as [[fl c2] | msg | ]; trivial.
      destruct IH as (Hext & Hfl). split.
      * eapply extends_step; eauto.
      * intros Hc _. apply Hfl; trivial.
Qed.

End LoopSoundness.

Lemma dispatch_sound (recurse : rValue -> rValue -> cmp -> res cmp) :
  (forall x y c, sound M c (recurse x y c)) ->
  forall a b aKind aType c,
    sound M c (dispatch cfg recurse a b aKind aType c).
Proof.
  intros Hrec a b aKind aType c.
  destruct aKind; simpl; try (apply extends_logError, extends_refl).
  - (* bool *) repeat step; leaf.
  - (* int *) repeat step; leaf.
  - repeat step; leaf.
  - repeat step; leaf.
  - repeat step; leaf.
  - repeat step; leaf.
  - (* uint *) repeat step; leaf.
  - repeat step; leaf.
  - repeat step; leaf.
  - repeat step; leaf.
  - repeat step; leaf.
  - (* float *) repeat step; leaf.
  - repeat step; leaf.
  - (* map *)
    step. step. step; [repeat step; leaf |].
    step. step. step; [leaf |]. step.
    pose proof (map_loop_a_sound recurse Hrec a b x3 c) as Ha.
    destruct (map_loop_a cfg recurse a b x3 c) as [[fl c1] | msg | ];
      simpl; trivial.
    destruct Ha as (Hext & Hfl). destruct fl; [| exact Hext].
    step.
    pose proof (map_loop_b_sound a b x4 c1) as Hb.
    destruct (map_loop_b cfg a b x4 c1) as [c2 | msg | ]; simpl in *; trivial.
    destruct (Z.ltb_spec (len (diff c)) M) as [Hlt | Hge].
    + eapply extends_step; eauto.
    + destruct Hext as (Eb & Ef & (e1 & Ed) & _).
      destruct Hb as (Bb & Bf & (e2 & Bd) & _).
      repeat split; try congruence.
      * exists (e1 ++ e2). rewrite Bd, Ed. now rewrite app_assoc.
      * lia.
  - (* slice *)
    step. step. step; [repeat step; leaf |].
    step. step. step; [leaf |]. step. step.
    apply slice_loop_sound, Hrec.
  - (* string *) repeat step; leaf.
  - (* struct *) step. apply struct_loop_sound, Hrec.
Qed.

(** [equals] returns or panics, and what it returns keeps the path and
    grows the list of differences within the cap. *)
Lemma equals_rec_sound :
  forall fuel a b level c,
    (Z.to_nat (MaxDepth cfg - level + 1) <= fuel)%nat ->
    sound M c (equals_rec cfg heap methods fuel a b level c).
Proof.
  induction fuel as [| fuel IH]; intros a b level c Hfuel.
  - simpl. destruct (Z.gtb_spec level (MaxDepth cfg)); [| lia].
    apply extends_logError, extends_refl.
  - simpl. destruct (Z.gtb_spec level (MaxDepth cfg)) as [Hgt | Hle].
    { apply extends_logError, extends_refl. }
    step. step. step; [apply extends_logError, extends_saveDiff |].
    unfold unwrap.
    assert (Hu : forall v k t,
               match (if isIndirect k
                      then a' <- Elem heap v ;;
                           match a' with
                           | Some x => Ok (a', Kind_ a', TypeOfValue x)
                           | None => Ok (a', Kind_ a', t)
                           end
                      else Ok (v, k, t)) with
               | OutOfFuel => False
               | _ => True
               end).
    { intros v k t. destruct (isIndirect k); trivial.
      destruct (Elem heap v) as [[w |] | |] eqn:Eel; simpl; trivial.
      crush_acc Eel. }
    match goal with
    | |- sound _ _ (bind ?m _) =>
        pose proof (Hu a (Kind_ a) x) as Hua;
        destruct m as [[[a' aKind] aType] | | ]; simpl; trivial
    end.
    match goal with
    | |- sound _ _ (bind ?m _) =>
        pose proof (Hu b (Kind_ b) x0) as Hub;
        destruct m as [[[b' bKind] bType] | | ]; simpl; trivial
    end.
    destruct a' as [av |], b' as [bv |]; try leaf.
    destruct (MethodByName methods av "Equal") as [eqFunc |].
    + repeat step; leaf.
    + apply dispatch_sound. intros x' y' c'. apply IH. lia.
Qed.

Lemma equals_sound (a b : rValue) (level : Z) (c : cmp) :
  sound M c (equals cfg heap methods a b level c).
Proof. unfold equals. apply equals_rec_sound. lia. Qed.

Lemma fuel_succ (level : Z) :
  level <= MaxDepth cfg ->
  Z.to_nat (MaxDepth cfg - level + 1) = S (Z.to_nat (MaxDepth cfg - level)).
Proof. intros H. rewrite <- Z2Nat.inj_succ by lia. f_equal. Qed.

Lemma below_cap (level : Z) :
  level <= MaxDepth cfg -> (level >? MaxDepth cfg) = false.
Proof. intros H. destruct (Z.gtb_spec level (MaxDepth cfg)); trivial. lia. Qed.

Lemma rtype_eqb_refl (t : rtype) : rtype_eqb t t = true.
Proof. unfold rtype_eqb. destruct (rtype_eq_dec t t); congruence. Qed.

Lemma rtype_eqb_neq (t u : rtype) : t <> u -> rtype_eqb t u = false.
Proof. unfold rtype_eqb. destruct (rtype_eq_dec t u); congruence. Qed.

Lemma Equal_of_equals (a b : rValue) (c : cmp) :
  equals cfg heap methods a b 0 (mkCmp [] [] (FloatPrecision cfg) []) = Ok c ->
  Equal cfg heap methods a b = Ok (diff c).
Proof.
  intros H. unfold Equal. rewrite H. simpl.
  destruct (diff c); reflexivity.
Qed.

(** *** Type mismatch *)

(** C2: two values of different dynamic type compare to exactly one
    difference, the one [saveDiff(aType, bType)] records at the current
    path; [equals] returns right after it (the state it returns is the
    entry state with that record and the optional log line), so nothing
    below the two values is visited.  The maximum depth is not negative. *)
Theorem type_mismatch_single_diff (a b : Value) :
  TypeOfValue a <> TypeOfValue b ->
  0 <= MaxDepth cfg ->
  Equal cfg heap methods (Some a) (Some b)
  = Ok [(Sprint_v (OType (TypeOfValue a)) ++ " != "
          ++ Sprint_v (OType (TypeOfValue b)))%string]
  /\ forall level c,
      level <= MaxDepth cfg ->
      equals cfg heap methods (Some a) (Some b) level c
      = Ok (logError cfg
              (saveDiff c (OType (TypeOfValue a)) (OType (TypeOfValue b)))
              ErrTypeMismatch).
Proof.
  intros Hne Hdepth.
  assert (Hgen : forall level c,
             level <= MaxDepth cfg ->
             equals cfg heap methods (Some a) (Some b) level c
             = Ok (logError cfg
                     (saveDiff c (OType (TypeOfValue a))
                               (OType (TypeOfValue b)))
                     ErrTypeMismatch)).
  { intros level c Hle. unfold equals. rewrite fuel_succ by exact Hle.
    simpl. rewrite below_cap by exact Hle.
    now rewrite rtype_eqb_neq by exact Hne. }
  split; [| exact Hgen].
  unfold Equal. rewrite Hgen by exact Hdepth. simpl.
  unfold logError, saveDiff. simpl. destruct (LogErrors cfg); reflexivity.
Qed.

(** *** Termination and the depth guard *)

(** C4: [equals] always comes back, with a state or with a panic; called
    at a level above [MaxDepth] it records nothing and returns at once (the
    state is the entry state with the optional log line).  On the
    self-referential list of [cyclic_heap], which has no end, the walk with
    [MaxDepth = 3] returns the three differences of levels 1 to 3. *)
Theorem equals_terminates (a b : rValue) (level : Z) (c : cmp) (k : nat) :
  ((exists c', equals cfg heap methods a b level c = Ok c')
   \/ (exists msg, equals cfg heap methods a b level c = Panic msg))
  /\ equals cfg heap methods a b (MaxDepth cfg + 1 + Z.of_nat k) c
     = Ok (logError cfg c ErrMaxRecursion)
  /\ diff (logError cfg c ErrMaxRecursion) = diff c
  /\ @Equal (mkConfig 10 100 3 false false) cyclic_heap no_methods goFmt
       (Some (VPtr tPtrNode (Some 1%positive)))
       (Some (VPtr tPtrNode (Some 2%positive)))
     = Ok ["Val: 1 != 2"; "Next.Val: 1 != 2"; "Next.Next.Val: 1 != 2"]%string.
Proof.
  split; [| split; [| split]].
  - pose proof (equals_sound a b level c) as H.
    destruct (equals cfg heap methods a b level c) as [c' | msg | ].
    + left. now exists c'.
    + right. now exists msg.
    + contradiction.
  - unfold equals.
    assert (Hgt : (MaxDepth cfg + 1 + Z.of_nat k >? MaxDepth cfg) = true).
    { apply Z.gtb_lt. lia. }
    destruct (Z.to_nat _); simpl; now rewrite Hgt.
  - apply logError_fields.
  - vm_compute. reflexivity.
Qed.

(** *** The cap on the number of differences *)

Lemma Equal_within_cap (a b : rValue) :
  1 <= MaxDiff cfg ->
  match Equal cfg heap methods a b with
  | Ok l => len l <= MaxDiff cfg
  | Panic _ => True
  | OutOfFuel => False
  end.
Proof.
  intros HM. unfold Equal.
  pose proof (equals_sound a b 0 (mkCmp [] [] (FloatPrecision cfg) [])) as H.
  destruct (equals cfg heap methods a b 0 _) as [c' | msg | ]; simpl in *;
    trivial.
  destruct H as (_ & _ & _ & Hcap).
  destruct (0 <? len (diff c')) eqn:E.
  - apply Hcap. unfold len. simpl. fold M. lia.
  - unfold len. simpl. lia.
Qed.

(** *** Leaves *)

Lemma rtype_eqb_eq (t u : rtype) : rtype_eqb t u = true -> t = u.
Proof. unfold rtype_eqb. destruct (rtype_eq_dec t u); congruence. Qed.

Lemma equals_rec_leaf (fuel : nat) (x y : Value) (level : Z) (c : cmp) :
  leaf_pair methods x y = true ->
  level <= MaxDepth cfg ->
  equals_rec cfg heap methods (S fuel) (Some x) (Some y) level c
  = Ok (if leaf_differs (floatFormat c) x y
        then saveDiff c (leaf_operand x) (leaf_operand y)
        else c).
Proof.
  unfold leaf_pair, no_Equal. intros H Hle.
  repeat (apply andb_prop in H; destruct H as [H ?]).
  apply rtype_eqb_eq in H.
  destruct (methods (TypeOfValue x) "Equal") as [m |] eqn:Em;
    [discriminate |].
  cbn [equals_rec]. rewrite (below_cap level Hle). cbn [Type_ bind].
  rewrite <- H, rtype_eqb_refl. cbn [negb].
  unfold unwrap, MethodByName.
  destruct x; cbn [TypeOfValue ctor_matches_kind] in *;
    destruct (tyKind t) eqn:K; try discriminate;
    destruct y; cbn [TypeOfValue ctor_matches_kind] in *; subst;
    rewrite ?K in *; try discriminate;
    cbn [Kind_ TypeOfValue isIndirect bind]; rewrite ?K;
    cbn [isIndirect bind TypeOfValue]; rewrite Em; cbn [dispatch]; cbn;
    match goal with
    | |- (if ?b then _ else _) = _ => destruct b; reflexivity
    end.
Qed.

(** *** Flat records *)

Lemma nth_error_middle {A : Type} (l l' : list A) (a : A) (n : nat) :
  n = List.length l -> nth_error (l ++ a :: l') n = Some a.
Proof.
  intros ->. rewrite nth_error_app2 by lia. now rewrite Nat.sub_diag.
Qed.

(** *** Reflexivity *)

Lemma quiet_refl (c : cmp) : quiet c c.
Proof. repeat split. Qed.

Lemma quiet_trans (c c1 c2 : cmp) : quiet c c1 -> quiet c1 c2 -> quiet c c2.
Proof. unfold quiet. intuition congruence. Qed.

Lemma quiet_logError (c : cmp) (e : error) : quiet c (logError cfg c e).
Proof. destruct (logError_fields c e) as (? & ? & ?). now repeat split. Qed.

Lemma quiet_pop (c c1 : cmp) (name : string) :
  quiet (push c name) c1 -> quiet c (pop c1).
Proof.
  intros (Hd & Hb & Hf). simpl in *.
  destruct (pop_after_push c c1 name Hb) as (Pb & Pd & Pf & _).
  repeat split; congruence.
Qed.

Lemma forallb_nth_error {A : Type} (f : A -> bool) (l : list A) (i : nat)
      (x : A) :
  forallb f l = true -> nth_error l i = Some x -> f x = true.
Proof.
  intros H E. rewrite forallb_forall in H. apply H.
  eapply nth_error_In; eauto.
Qed.

Section Reflexive.

Variable recurse : rValue -> rValue -> cmp -> res cmp.

Lemma struct_loop_refl (t : rtype) (fs : list Value) :
  List.length fs = List.length (tyFields t) ->
  (forall i f fx c,
      nth_error (tyFields t) i = Some f ->
      visible cfg f = true ->
      nth_error fs i = Some fx ->
      exists c', recurse (Some fx) (Some fx) c = Ok c' /\ quiet c c') ->
  forall todo i c,
    (i + todo = List.length fs)%nat ->
    exists c',
      struct_loop cfg recurse (VStruct t fs) (VStruct t fs) t todo i c = Ok c'
      /\ quiet c c'.
Proof.
  intros Hlen Hrec.
  induction todo as [| todo IH]; intros i c Hi; cbn [struct_loop].
  - exists c. split; [reflexivity | apply quiet_refl].
  - unfold TypeField.
    destruct (nth_error (tyFields t) i) as [f |] eqn:Ef.
    2:{ apply nth_error_None in Ef. lia. }
    cbn [bind].
    destruct (negb (PkgPath f =? "")%string
              && negb (CompareUnexportedFields cfg)) eqn:Eskip.
    { apply IH. lia. }
    cbn [Field].
    destruct (nth_error fs i) as [x |] eqn:Ex.
    2:{ apply nth_error_None in Ex. lia. }
    cbn [bind].
    destruct (Hrec i f x (push c (Name f)) Ef) as (c1 & Hrun & Hq); trivial.
    { unfold visible.
      destruct (PkgPath f =? "")%string, (CompareUnexportedFields cfg);
        trivial; discriminate. }
    rewrite Hrun. cbn [bind].
    pose proof (quiet_pop c c1 (Name f) Hq) as Hq'.
    destruct (len (diff (pop c1)) >=? MaxDiff cfg).
    + now exists (pop c1).
    + destruct (IH (S i) (pop c1)) as (c2 & Hrun2 & Hq2); [lia |].
      exists c2. split; [exact Hrun2 | eapply quiet_trans; eauto].
Qed.

Lemma dispatch_refl (v : Value) (c : cmp) :
  wf v = true ->
  (forall t fs i f fx c0,
      v = VStruct t fs ->
      nth_error (tyFields t) i = Some f ->
      visible cfg f = true ->
      nth_error fs i = Some fx ->
      exists c', recurse (Some fx) (Some fx) c0 = Ok c' /\ quiet c0 c') ->
  exists c',
    dispatch cfg recurse v v (tyKind (TypeOfValue v)) (TypeOfValue v) c = Ok c'
    /\ quiet c c'.
Proof.
  intros Hwf Hrec.
  assert (Hk : ctor_matches_kind v = true).
  { destruct v; simpl in Hwf; now apply andb_prop in Hwf. }
  destruct v; cbn [TypeOfValue ctor_matches_kind] in *;
    destruct (tyKind t) eqn:K; try discriminate; cbn [dispatch];
    try (eexists; split; [reflexivity | apply quiet_logError]).
  all: try (cbn; rewrite ?Bool.eqb_reflx, ?Z.eqb_refl, ?String.eqb_refl;
            cbn; eexists; split; [reflexivity | apply quiet_refl]).
  - (* struct *)
    cbn [NumField bind].
    simpl in Hwf. rewrite K in Hwf. simpl in Hwf.
    apply andb_prop in Hwf. destruct Hwf as [Hlen Hall].
    apply Nat.eqb_eq in Hlen.
    apply struct_loop_refl; trivial; [| lia].
    intros i f fx c0. now apply (Hrec t fields i f fx c0).
  - (* map *)
    destruct m as [[p es] |]; cbn; rewrite ?Pos.eqb_refl;
      eexists; (split; [reflexivity | apply quiet_refl]).
  - (* slice *)
    destruct s as [[p es] |]; cbn; rewrite ?Pos.eqb_refl;
      eexists; (split; [reflexivity | apply quiet_refl]).
Qed.

End Reflexive.

Lemma unwrap_wf (x : Value) :
  wf_heap heap ->
  wf x = true ->
  unwrap heap (Some x) (Kind_ (Some x)) (TypeOfValue x)
  = Ok (None, KInvalid, TypeOfValue x)
  \/ exists v,
      wf v = true
      /\ unwrap heap (Some x) (Kind_ (Some x)) (TypeOfValue x)
         = Ok (Some v, tyKind (TypeOfValue v), TypeOfValue v).
Proof.
  intros Hheap Hwf.
  assert (Hk : ctor_matches_kind x = true).
  { destruct x; simpl in Hwf; now apply andb_prop in Hwf. }
  unfold unwrap. cbn [Kind_].
  destruct x; cbn [TypeOfValue ctor_matches_kind] in *;
    destruct (tyKind t) eqn:K; try discriminate; cbn [isIndirect];
    try (right; eexists; split; [exact Hwf |]; cbn [TypeOfValue];
         now rewrite K).
  - (* pointer *)
    destruct p as [p |]; cbn; [| now left].
    right. exists (heap p). split; [apply Hheap | reflexivity].
  - (* interface *)
    destruct e as [v |]; cbn; [| now left].
    right. exists v. split; [| reflexivity].
    simpl in Hwf. rewrite K in Hwf. simpl in Hwf.
    apply andb_prop in Hwf. tauto.
Qed.

Lemma wf_struct_field (t : rtype) (fs : list Value) (i : nat) (fx : Value) :
  wf (VStruct t fs) = true -> nth_error fs i = Some fx -> wf fx = true.
Proof.
  cbn [wf]. intros H Hx.
  apply andb_prop in H. destruct H as [_ H].
  apply andb_prop in H. destruct H as [_ H].
  eapply forallb_nth_error; eauto.
Qed.

Lemma equals_rec_refl :
  wf_heap heap ->
  forall fuel x level c ro,
    wf x = true ->
    (Z.to_nat (MaxDepth cfg - level + 1) <= fuel)%nat ->
    reflexive_walk cfg heap methods
                   (Z.to_nat (MaxDepth cfg - level + 1)) ro x ->
    exists c',
      equals_rec cfg heap methods fuel (Some x) (Some x) level c = Ok c'
      /\ quiet c c'.
Proof.
  intros Hheap.
  induction fuel as [| fuel IH]; intros x level c ro Hwf Hfuel Hwalk;
    cbn [equals_rec];
    destruct (Z.gtb_spec level (MaxDepth cfg)) as [Hgt | Hle];
    try (eexists; split; [reflexivity | apply quiet_logError]).
  - lia.
  - cbn [Type_ bind]. rewrite rtype_eqb_refl. cbn [negb].
    rewrite (fuel_succ level Hle) in Hwalk. cbn [reflexive_walk] in Hwalk.
    destruct (unwrap_wf x Hheap Hwf) as [Hu | (v & Hv & Hu)];
      rewrite Hu in *; cbn [bind].
    + exists c. split; [reflexivity | apply quiet_refl].
    + unfold MethodByName.
      destruct (methods (TypeOfValue v) "Equal") as [m |] eqn:Em.
      * destruct Hwalk as (_ & r & rest & Hcall & Hr).
        unfold Call. rewrite Hcall. cbn [bind first_result].
        rewrite Hr. cbn [bind negb].
        exists c. split; [reflexivity | apply quiet_refl].
      * apply dispatch_refl; trivial.
        intros t fs i f fx c0 -> Hf Hvis Hx.
        apply (IH fx (level + 1) c0
                  (ro || negb (PkgPath f =? "")%string)).
        -- eapply wf_struct_field; eauto.
        -- lia.
        -- replace (MaxDepth cfg - (level + 1) + 1)
             with (MaxDepth cfg - level) by lia.
           now apply (Hwalk i f fx).
Qed.

(** C1, as the code has it: a valid, well-formed value, over a well-formed
    heap, compared with itself gives no difference, whatever its kind
    (values of kinds without a rule included), provided every [Equal]
    method that the walk reaches answers [true] when called with its
    receiver as argument, and is reached through exported fields only. *)
Theorem Equal_reflexive (x : Value) :
  wf_heap heap ->
  wf x = true ->
  reflexive_walk cfg heap methods (Z.to_nat (MaxDepth cfg + 1)) false x ->
  Equal cfg heap methods (Some x) (Some x) = Ok [].
Proof.
  intros Hheap Hwf Hwalk. unfold Equal, equals.
  destruct (equals_rec_refl Hheap
              (Z.to_nat (MaxDepth cfg - 0 + 1)) x 0
              (mkCmp [] [] (FloatPrecision cfg) []) false Hwf (le_n _))
    as (c' & Hrun & Hd & _).
  { now rewrite Z.sub_0_r. }
  rewrite Hrun. cbn [bind]. rewrite Hd. reflexivity.
Qed.

(** *** After unwrapping: nil, [Equal] methods, floats *)

Lemma equals_unwrapped (a b : Value) (ua ub : rValue * Kind * rtype)
      (level : Z) (c : cmp) :
  level <= MaxDepth cfg ->
  TypeOfValue a = TypeOfValue b ->
  unwrap heap (Some a) (Kind_ (Some a)) (TypeOfValue a) = Ok ua ->
  unwrap heap (Some b) (Kind_ (Some b)) (TypeOfValue b) = Ok ub ->
  equals cfg heap methods (Some a) (Some b) level c
  = let '(a', aKind, aType) := ua in
    let '(b', _, bType) := ub in
    match a', b' with
    | Some _, None => Ok (saveDiff c (OType aType) (OString "<nil pointer>"))
    | None, Some _ => Ok (saveDiff c (OString "<nil pointer>") (OType bType))
    | None, None => Ok c
    | Some a1, Some b1 =>
        match MethodByName methods a1 "Equal" with
        | Some eqFunc =>
            retVals <- Call eqFunc a1 [b1] ;;
            r0 <- first_result retVals ;;
            eq <- Bool_ r0 ;;
            if negb eq
            then Ok (saveDiff c (OValue (Some a1)) (OValue (Some b1)))
            else Ok c
        | None =>
            dispatch cfg
              (fun x y => equals_rec cfg heap methods
                            (Z.to_nat (MaxDepth cfg - level)) x y (level + 1))
              a1 b1 aKind aType c
        end
    end.
Proof.
  intros Hle Ht Ha Hb. unfold equals. rewrite fuel_succ by exact Hle.
  cbn [equals_rec]. rewrite below_cap by exact Hle.
  cbn [Type_ bind].
  replace (rtype_eqb (TypeOfValue a) (TypeOfValue b)) with true
    by (rewrite Ht; symmetry; apply rtype_eqb_refl).
  cbn [negb]. rewrite Ha. cbn [bind]. rewrite Hb. reflexivity.
Qed.

Lemma unwrap_present (v x : Value) (k : Kind) (t : rtype) :
  unwrap heap (Some v) (Kind_ (Some v)) (TypeOfValue v) = Ok (Some x, k, t) ->
  t = TypeOfValue x /\ k = tyKind (TypeOfValue x).
Proof.
  unfold unwrap. destruct (isIndirect (Kind_ (Some v))).
  - destruct (Elem heap (Some v)) as [[y |] | |]; cbn [bind];
      intros H; inversion H; subst; split; reflexivity.
  - intros H; inversion H; subst; split; reflexivity.
Qed.

Lemma string_app_assoc (x y z : string) :
  ((x ++ y) ++ z)%string = (x ++ y ++ z)%string.
Proof. induction x as [| ch x IH]; cbn; [reflexivity | now rewrite IH]. Qed.

(** C7: when the unwrapped left value has a method [Equal], [equals]
    calls that method on the two unwrapped values and its answer alone
    decides: on [true] the state is returned as it was; on [false] it is
    returned with exactly one more record, the two unwrapped values
    rendered with [%v] around [" != "] and qualified by the path, if any;
    a panic of the call is the panic of [equals].  Neither value is
    walked.  (The values are reached through exported fields: at level
    0, or with [CompareUnexportedFields] off.) *)
Theorem Equal_method_decides (a b a1 b1 : Value) (ka kb : Kind)
        (ta tb : rtype) (m : Method) (level : Z) (c : cmp) :
  level <= MaxDepth cfg ->
  level = 0 \/ CompareUnexportedFields cfg = false ->
  TypeOfValue a = TypeOfValue b ->
  unwrap heap (Some a) (Kind_ (Some a)) (TypeOfValue a) = Ok (Some a1, ka, ta) ->
  unwrap heap (Some b) (Kind_ (Some b)) (TypeOfValue b) = Ok (Some b1, kb, tb) ->
  methods (TypeOfValue a1) "Equal" = Some m ->
  (forall t rest,
      m a1 [b1] = inl (VBool t true :: rest) ->
      equals cfg heap methods (Some a) (Some b) level c = Ok c)
  /\ (forall t rest,
         m a1 [b1] = inl (VBool t false :: rest) ->
         equals cfg heap methods (Some a) (Some b) level c
         = Ok (mkCmp
                 (diff c
                  ++ [((if (0 <? len (buff c))%Z
                        then String.concat "." (buff c) ++ ": " else "")
                         ++ Sprint_v (OValue (Some a1)) ++ " != "
                         ++ Sprint_v (OValue (Some b1)))%string])
                 (buff c) (floatFormat c) (logged c)))
  /\ (forall msg,
         m a1 [b1] = inr msg ->
         equals cfg heap methods (Some a) (Some b) level c = Panic msg).
Proof.
  intros Hle _ Ht Ha Hb Hm.
  assert (Hrun :
            equals cfg heap methods (Some a) (Some b) level c
            = (retVals <- Call m a1 [b1] ;;
               r0 <- first_result retVals ;;
               eq <- Bool_ r0 ;;
               if negb eq
               then Ok (saveDiff c (OValue (Some a1)) (OValue (Some b1)))
               else Ok c)).
  { rewrite (equals_unwrapped a b _ _ level c Hle Ht Ha Hb).
    cbn beta iota. unfold MethodByName. now rewrite Hm. }
  split; [| split].
  - intros t rest Hcall. rewrite Hrun. unfold Call. rewrite Hcall.
    reflexivity.
  - intros t rest Hcall. rewrite Hrun. unfold Call. rewrite Hcall.
    cbn [bind first_result Bool_ negb]. unfold saveDiff.
    destruct (0 <? len (buff c)); cbn [append]; try reflexivity.
    now rewrite string_app_assoc.
  - intros msg Hcall. rewrite Hrun. unfold Call. now rewrite Hcall.
Qed.

(** C8, as the code has it: after unwrapping, when one value is absent and
    the other present, [equals] records one difference that pairs the
    TYPE of the present value with ["<nil pointer>"] and returns; when
    both are absent it records nothing. *)
Theorem nil_pointer_diff (a b : Value) (level : Z) (c : cmp) :
  level <= MaxDepth cfg ->
  TypeOfValue a = TypeOfValue b ->
  (forall a1 ka ta kb tb,
      unwrap heap (Some a) (Kind_ (Some a)) (TypeOfValue a)
      = Ok (Some a1, ka, ta) ->
      unwrap heap (Some b) (Kind_ (Some b)) (TypeOfValue b)
      = Ok (None, kb, tb) ->
      equals cfg heap methods (Some a) (Some b) level c
      = Ok (saveDiff c (OType (TypeOfValue a1)) (OString "<nil pointer>")))
  /\ (forall b1 ka ta kb tb,
         unwrap heap (Some a) (Kind_ (Some a)) (TypeOfValue a)
         = Ok (None, ka, ta) ->
         unwrap heap (Some b) (Kind_ (Some b)) (TypeOfValue b)
         = Ok (Some b1, kb, tb) ->
         equals cfg heap methods (Some a) (Some b) level c
         = Ok (saveDiff c (OString "<nil pointer>") (OType (TypeOfValue b1))))
  /\ (forall ka ta kb tb,
         unwrap heap (Some a) (Kind_ (Some a)) (TypeOfValue a)
         = Ok (None, ka, ta) ->
         unwrap heap (Some b) (Kind_ (Some b)) (TypeOfValue b)
         = Ok (None, kb, tb) ->
         equals cfg heap methods (Some a) (Some b) level c = Ok c).
Proof.
  intros Hle Ht. split; [| split].
  - intros a1 ka ta kb tb Ha Hb.
    rewrite (equals_unwrapped a b _ _ level c Hle Ht Ha Hb).
    apply unwrap_present in Ha. destruct Ha as [-> _]. reflexivity.
  - intros b1 ka ta kb tb Ha Hb.
    rewrite (equals_unwrapped a b _ _ level c Hle Ht Ha Hb).
    apply unwrap_present in Hb. destruct Hb as [-> _]. reflexivity.
  - intros ka ta kb tb Ha Hb.
    now rewrite (equals_unwrapped a b _ _ level c Hle Ht Ha Hb).
Qed.

(** C9: two floats of one type are equal for [Equal] exactly when their
    renderings with [FloatPrecision] fractional digits are the same text;
    otherwise the one record holds the two float values themselves.  With
    the rendering of ["%.<n>f"], 0.1 + 0.2 against 0.3 gives no difference
    at precision 10 and one difference at precision 17. *)
Theorem float_compare (t : rtype) (fa fb : spec_float)
        (sv : Operand -> string) (ss : Value -> string) :
  0 <= MaxDepth cfg ->
  tyKind t = KFloat32 \/ tyKind t = KFloat64 ->
  methods t "Equal" = None ->
  Equal cfg heap methods (Some (VFloat t fa)) (Some (VFloat t fb))
  = Ok (if String.eqb (Sprintf_float (FloatPrecision cfg) fa)
                      (Sprintf_float (FloatPrecision cfg) fb)
        then []
        else [(Sprint_v (OFloat fa) ++ " != " ++ Sprint_v (OFloat fb))%string])
  /\ @Equal defaults flat_heap no_methods (mkFmt sv ss format_fixed)
       (Some (VFloat tFloat64 (f64_add f64_0_1 f64_0_2)))
       (Some (VFloat tFloat64 f64_0_3))
     = Ok []
  /\ @Equal (mkConfig 17 10 10 false false) flat_heap no_methods
       (mkFmt sv ss format_fixed)
       (Some (VFloat tFloat64 (f64_add f64_0_1 f64_0_2)))
       (Some (VFloat tFloat64 f64_0_3))
     = Ok [(sv (OFloat (f64_add f64_0_1 f64_0_2)) ++ " != "
              ++ sv (OFloat f64_0_3))%string].
Proof.
  intros Hd Hk Hm. split; [| split].
  - unfold Equal.
    rewrite (equals_unwrapped (VFloat t fa) (VFloat t fb)
               (Some (VFloat t fa), tyKind t, t)
               (Some (VFloat t fb), tyKind t, t)); trivial;
      try (unfold unwrap; cbn [Kind_ TypeOfValue];
           destruct Hk as [-> | ->]; reflexivity).
    cbn beta iota. unfold MethodByName. cbn [TypeOfValue]. rewrite Hm.
    destruct Hk as [-> | ->]; cbn [dispatch Float_ bind floatFormat];
      destruct (String.eqb _ _); reflexivity.
  - vm_compute. reflexivity.
  - vm_compute. reflexivity.
Qed.

(** *** Slices *)

Section SliceLoop.

Variable recurse : rValue -> rValue -> cmp -> res cmp.

(** The first [m] iterations, then the remaining [k] unless the cap was
    reached. *)
Lemma slice_loop_split (a b : Value) (aLen bLen : nat) :
  forall m k i c,
    len (diff c) < M ->
    slice_loop cfg recurse a b aLen bLen (m + k) i c
    = c1 <- slice_loop cfg recurse a b aLen bLen m i c ;;
      if len (diff c1) >=? MaxDiff cfg then Ok c1
      else slice_loop cfg recurse a b aLen bLen k (i + m) c1.
Proof.
  induction m as [| m IH]; intros k i c Hlt.
  - cbn [slice_loop Nat.add bind]. rewrite Nat.add_0_r.
    destruct (Z.geb_spec (len (diff c)) (MaxDiff cfg)); trivial.
    unfold M in Hlt. lia.
  - cbn [slice_loop Nat.add].
    match goal with
    | |- bind ?body _ = _ => destruct body as [c1 | msg |]
    end; cbn [bind]; trivial.
    destruct (Z.geb_spec (len (diff (pop c1))) (MaxDiff cfg)) as [Hge | Hlt'].
    + cbn [bind].
      destruct (Z.geb_spec (len (diff (pop c1))) (MaxDiff cfg)); trivial. lia.
    + rewrite IH by exact Hlt'. now rewrite Nat.add_succ_r.
Qed.

(** Below the length of the shorter slice the loop only sees the common
    prefix. *)
Lemma slice_loop_prefix (t : rtype) (pa pb : positive) (la lb : list Value)
      (m : nat) :
  (m <= List.length la)%nat ->
  (m <= List.length lb)%nat ->
  forall todo i c,
    (i + todo <= m)%nat ->
    slice_loop cfg recurse
      (VSlice t (Some (pa, la))) (VSlice t (Some (pb, lb)))
      (List.length la) (List.length lb) todo i c
    = slice_loop cfg recurse
        (VSlice t (Some (pa, firstn m la))) (VSlice t (Some (pb, firstn m lb)))
        m m todo i c.
Proof.
  intros Hla Hlb.
  induction todo as [| todo IH]; intros i c Hi; cbn [slice_loop]; trivial.
  assert (Ha : (i <? List.length la)%nat = true) by (apply Nat.ltb_lt; lia).
  assert (Hb : (i <? List.length lb)%nat = true) by (apply Nat.ltb_lt; lia).
  assert (Hm : (i <? m)%nat = true) by (apply Nat.ltb_lt; lia).
  rewrite Ha, Hb, Hm. cbn [andb Index].
  rewrite !nth_error_firstn, Hm.
  match goal with
  | |- bind ?body _ = _ => destruct body as [c1 | msg |]
  end; cbn [bind]; trivial.
  destruct (len (diff (pop c1)) >=? MaxDiff cfg); trivial.
  apply IH. lia.
Qed.

End SliceLoop.

Lemma indexed_cons {A : Type} (i : nat) (x : A) (xs : list A) :
  indexed i (x :: xs) = (i, x) :: indexed (S i) xs.
Proof. reflexivity. Qed.

Lemma firstn_cap_step (d : list string) (r : string) (rest : list string) :
  len d < M ->
  d ++ firstn (Z.to_nat (M - len d)) (r :: rest)
  = (d ++ [r]) ++ firstn (Z.to_nat (M - len (d ++ [r]))) rest.
Proof.
  intros Hlt. rewrite len_app. change (len [r]) with 1.
  replace (Z.to_nat (M - len d)) with (S (Z.to_nat (M - (len d + 1))))
    by (rewrite <- Z2Nat.inj_succ by lia; f_equal; lia).
  cbn [firstn]. now rewrite <- app_assoc.
Qed.

Lemma firstn_cap_stop (d : list string) (r : string) (rest : list string) :
  len d < M ->
  len (d ++ [r]) >= M ->
  d ++ firstn (Z.to_nat (M - len d)) (r :: rest) = d ++ [r].
Proof.
  intros Hlt Hge. rewrite len_app in Hge. change (len [r]) with 1 in Hge.
  replace (M - len d) with 1 by lia. reflexivity.
Qed.

(** Beyond the shorter slice: one record for each element of the longer
    one, until the cap. *)
Lemma slice_loop_left_only (recurse : rValue -> rValue -> cmp -> res cmp)
      (t : rtype) (pa pb : positive) (lb : list Value) :
  forall (xs pre : list Value) (i : nat) (c : cmp),
    i = List.length pre ->
    (List.length lb <= i)%nat ->
    buff c = [] ->
    len (diff c) < M ->
    exists c',
      slice_loop cfg recurse
        (VSlice t (Some (pa, pre ++ xs))) (VSlice t (Some (pb, lb)))
        (List.length (pre ++ xs)) (List.length lb) (List.length xs) i c
      = Ok c'
      /\ diff c'
         = diff c ++ firstn (Z.to_nat (M - len (diff c)))
                            (map left_only_record (indexed i xs))
      /\ buff c' = [].
Proof.
  induction xs as [| x xs IH]; intros pre i c Hi Hlb Hbuf Hlt.
  - exists c. cbn. rewrite firstn_nil, app_nil_r. auto.
  - destruct c as [d bf ff lg]. cbn [diff buff] in *. subst bf.
    cbn [slice_loop List.length].
    assert (Ha : (i <? List.length (pre ++ x :: xs))%nat = true).
    { apply Nat.ltb_lt. rewrite length_app. simpl. lia. }
    assert (Hb : (i <? List.length lb)%nat = false).
    { apply Nat.ltb_ge. lia. }
    rewrite Ha, Hb. cbn [andb Index].
    rewrite (nth_error_middle pre xs x i Hi). cbn [bind].
    unfold saveDiff, push, pop. cbn [buff diff floatFormat logged app].
    change (0 <? len [slice_seg i]) with true. cbn iota.
    cbn [buff diff floatFormat logged removelast String.concat].
    change (0 <? len [slice_seg i]) with true. cbn iota.
    cbn [buff diff floatFormat logged removelast].
    rewrite indexed_cons. cbn [map].
    change (slice_seg i ++ ": " ++ Sprint_v (OValue (Some x)) ++ " != "
              ++ Sprint_v (OString "<no value>"))%string
      with (left_only_record (i, x)).
    set (r := left_only_record (i, x)).
    destruct (Z.geb_spec (len (d ++ [r])) (MaxDiff cfg)) as [Hge | Hlt'].
    + eexists. split; [reflexivity |]. cbn [diff buff]. split; trivial.
      symmetry. apply firstn_cap_stop; trivial. unfold M. lia.
    + specialize (IH (pre ++ [x]) (S i) (mkCmp (d ++ [r]) [] ff lg)).
      rewrite <- app_assoc in IH. cbn [app] in IH.
      destruct IH as (c' & Hrun & Hd & Hb'); trivial.
      { rewrite length_app. simpl. lia. }
      { lia. }
      exists c'. split; [exact Hrun |]. split; trivial.
      rewrite Hd. cbn [diff]. symmetry. now apply firstn_cap_step.
Qed.

Lemma slice_loop_right_only (recurse : rValue -> rValue -> cmp -> res cmp)
      (t : rtype) (pa pb : positive) (la : list Value) :
  forall (ys pre : list Value) (i : nat) (c : cmp),
    i = List.length pre ->
    (List.length la <= i)%nat ->
    buff c = [] ->
    len (diff c) < M ->
    exists c',
      slice_loop cfg recurse
        (VSlice t (Some (pa, la))) (VSlice t (Some (pb, pre ++ ys)))
        (List.length la) (List.length (pre ++ ys)) (List.length ys) i c
      = Ok c'
      /\ diff c'
         = diff c ++ firstn (Z.to_nat (M - len (diff c)))
                            (map right_only_record (indexed i ys))
      /\ buff c' = [].
Proof.
  induction ys as [| y ys IH]; intros pre i c Hi Hla Hbuf Hlt.
  - exists c. cbn. rewrite firstn_nil, app_nil_r. auto.
  - destruct c as [d bf ff lg]. cbn [diff buff] in *. subst bf.
    cbn [slice_loop List.length].
    assert (Ha : (i <? List.length la)%nat = false).
    { apply Nat.ltb_ge. lia. }
    rewrite Ha. cbn [andb Index].
    rewrite (nth_error_middle pre ys y i Hi). cbn [bind].
    unfold saveDiff, push, pop. cbn [buff diff floatFormat logged app].
    change (0 <? len [slice_seg i]) with true. cbn iota.
    cbn [buff diff floatFormat logged removelast String.concat].
    change (0 <? len [slice_seg i]) with true. cbn iota.
    cbn [buff diff floatFormat logged removelast].
    rewrite indexed_cons. cbn [map].
    change (slice_seg i ++ ": " ++ Sprint_v (OString "<no value>") ++ " != "
              ++ Sprint_v (OValue (Some y)))%string
      with (right_only_record (i, y)).
    set (r := right_only_record (i, y)).
    destruct (Z.geb_spec (len (d ++ [r])) (MaxDiff cfg)) as [Hge | Hlt'].
    + eexists. split; [reflexivity |]. cbn [diff buff]. split; trivial.
      symmetry. apply firstn_cap_stop; trivial. unfold M. lia.
    + specialize (IH (pre ++ [y]) (S i) (mkCmp (d ++ [r]) [] ff lg)).
      rewrite <- app_assoc in IH. cbn [app] in IH.
      destruct IH as (c' & Hrun & Hd & Hb'); trivial.
      { rewrite length_app. simpl. lia. }
      { lia. }
      exists c'. split; [exact Hrun |]. split; trivial.
      rewrite Hd. cbn [diff]. symmetry. now apply firstn_cap_step.
Qed.

Lemma Equal_diff (a b : rValue) :
  Equal cfg heap methods a b
  = c <- equals cfg heap methods a b 0 (mkCmp [] [] (FloatPrecision cfg) []) ;;
    Ok (diff c).
Proof.
  unfold Equal. destruct (equals _ _ _ _ _ _ _) as [c | |]; cbn [bind]; trivial.
  destruct (diff c); reflexivity.
Qed.

Lemma Equal_slices (t : rtype) (pa pb : positive) (la lb : list Value) :
  0 <= MaxDepth cfg ->
  tyKind t = KSlice ->
  methods t "Equal" = None ->
  pa <> pb ->
  Equal cfg heap methods (Some (VSlice t (Some (pa, la))))
        (Some (VSlice t (Some (pb, lb))))
  = c <- slice_loop cfg
           (fun x y => equals_rec cfg heap methods
                         (Z.to_nat (MaxDepth cfg - 0)) x y (0 + 1))
           (VSlice t (Some (pa, la))) (VSlice t (Some (pb, lb)))
           (List.length la) (List.length lb)
           (if (List.length la <? List.length lb)%nat
            then List.length lb else List.length la)
           0%nat (mkCmp [] [] (FloatPrecision cfg) []) ;;
    Ok (diff c).
Proof.
  intros Hd Hk Hm Hp. rewrite Equal_diff.
  rewrite (equals_unwrapped _ _
             (Some (VSlice t (Some (pa, la))), tyKind t, t)
             (Some (VSlice t (Some (pb, lb))), tyKind t, t)); trivial;
    try (unfold unwrap; cbn [Kind_ TypeOfValue]; now rewrite Hk).
  cbn beta iota. unfold MethodByName. cbn [TypeOfValue]. rewrite Hm, Hk.
  cbn [dispatch IsNil bind orb Pointer addr_of Len].
  replace (Z.pos pa =? Z.pos pb) with false; trivial.
  symmetry. apply Z.eqb_neq. congruence.
Qed.

(** X16: for two non-nil slices of one type (without [Equal] method)
    whose data pointers differ, the loop covers the longer slice: the
    result is what the common prefix gives, followed by one record
    against ["<no value>"] for each element beyond the shorter slice, up
    to the cap; there are as many such records as the longer slice has
    extra elements. *)
Theorem slices_cover_longer (t : rtype) (pa pb : positive)
        (la lb : list Value) :
  0 <= MaxDepth cfg ->
  1 <= MaxDiff cfg ->
  tyKind t = KSlice ->
  methods t "Equal" = None ->
  pa <> pb ->
  let m := Nat.min (List.length la) (List.length lb) in
  Equal cfg heap methods (Some (VSlice t (Some (pa, la))))
        (Some (VSlice t (Some (pb, lb))))
  = (l0 <- Equal cfg heap methods
             (Some (VSlice t (Some (pa, firstn m la))))
             (Some (VSlice t (Some (pb, firstn m lb)))) ;;
     Ok (l0 ++ firstn (Z.to_nat (MaxDiff cfg - len l0))
                      (trailing_records la lb)))
  /\ List.length (trailing_records la lb)
     = (Nat.max (List.length la) (List.length lb) - m)%nat.
Proof.
  intros Hd HM Hk Hm Hp m. split.
  2:{ unfold trailing_records, indexed. fold m.
      rewrite length_app, !length_map, !length_combine, !length_seq,
        !length_skipn. lia. }
  rewrite !Equal_slices by trivial.
  set (rec := fun x y => equals_rec cfg heap methods
                           (Z.to_nat (MaxDepth cfg - 0)) x y (0 + 1)).
  set (c0 := mkCmp [] [] (FloatPrecision cfg) []).
  assert (Hrec : forall x y c, sound M c (rec x y c)).
  { intros x y c. apply equals_rec_sound. lia. }
  assert (Hfa : List.length (firstn m la) = m)
    by (rewrite length_firstn; lia).
  assert (Hfb : List.length (firstn m lb) = m)
    by (rewrite length_firstn; lia).
  rewrite Hfa, Hfb, Nat.ltb_irrefl.
  set (k := (Nat.max (List.length la) (List.length lb) - m)%nat).
  replace (if (List.length la <? List.length lb)%nat
           then List.length lb else List.length la)
    with (m + k)%nat
    by (destruct (Nat.ltb_spec (List.length la) (List.length lb)); lia).
  rewrite slice_loop_split by (unfold c0, len; simpl; fold M in HM; lia).
  rewrite (slice_loop_prefix rec t pa pb la lb m) by lia.
  pose proof (slice_loop_sound rec Hrec
                (VSlice t (Some (pa, firstn m la)))
                (VSlice t (Some (pb, firstn m lb))) m m m 0%nat c0) as Hs.
  destruct (slice_loop cfg rec _ _ m m m 0%nat c0) as [c1 | msg |];
    cbn [bind]; trivial.
  destruct Hs as (Hbuf & _ & _ & _). cbn [buff c0] in Hbuf.
  destruct (Z.geb_spec (len (diff c1)) (MaxDiff cfg)) as [Hge | Hlt].
  - cbn [bind].
    replace (Z.to_nat (MaxDiff cfg - len (diff c1))) with 0%nat by lia.
    cbn [firstn]. now rewrite app_nil_r.
  - cbn [Nat.add]. unfold trailing_records. fold m.
    destruct (Nat.le_ge_cases (List.length lb) (List.length la)) as [Hl | Hl].
    + destruct (slice_loop_left_only rec t pa pb lb (skipn m la)
                  (firstn m la) m c1) as (c' & Hrun & Hdf & _); trivial;
        try lia.
      rewrite firstn_skipn, length_skipn in Hrun.
      replace (List.length la - m)%nat with k in Hrun by lia.
      rewrite Hrun. cbn [bind].
      rewrite (skipn_all2 (n := m) lb) by lia.
      cbn [indexed List.length seq combine map]. rewrite app_nil_r.
      now rewrite Hdf.
    + destruct (slice_loop_right_only rec t pa pb la (skipn m lb)
                  (firstn m lb) m c1) as (c' & Hrun & Hdf & _); trivial;
        try lia.
      rewrite firstn_skipn, length_skipn in Hrun.
      replace (List.length lb - m)%nat with k in Hrun by lia.
      rewrite Hrun. cbn [bind].
      rewrite (skipn_all2 (n := m) la) by lia.
      cbn [indexed List.length seq combine map app].
      now rewrite Hdf.
Qed.

(** *** Maps *)

Lemma saveDiff_under_segment (c : cmp) (seg : string) (x y : Operand) :
  buff c = [seg] ->
  diff (saveDiff c x y)
  = diff c ++ [(seg ++ ": " ++ Sprint_v x ++ " != " ++ Sprint_v y)%string]
  /\ buff (saveDiff c x y) = [seg]
  /\ floatFormat (saveDiff c x y) = floatFormat c.
Proof.
  intros Hb. unfold saveDiff. rewrite Hb.
  change (0 <? len [seg]) with true. cbn. auto.
Qed.

Section MapLoops.

Variable recurse : rValue -> rValue -> cmp -> res cmp.
Hypothesis recurse_sound : forall x y c, sound M c (recurse x y c).
Hypothesis recurse_refl :
  forall v c,
    wf v = true ->
    reflexive_walk cfg heap methods (Z.to_nat (MaxDepth cfg)) false v ->
    exists c', recurse (Some v) (Some v) c = Ok c' /\ quiet c c'.

Variables (t : rtype) (pa pb : positive) (ea eb : list (Value * Value)).

(** The first loop, when it returns below the cap: it went through all
    the keys, and each key added its contribution. *)
Lemma map_loop_a_contributions :
  forall keys c fl c',
    buff c = [] ->
    map_loop_a cfg recurse (VMap t (Some (pa, ea))) (VMap t (Some (pb, eb)))
               keys c = Ok (fl, c') ->
    len (diff c') < M ->
    fl = Continue
    /\ buff c' = []
    /\ exists exts,
        diff c' = diff c ++ List.concat exts
        /\ Forall2 (key_contribution cfg heap methods ea eb) keys exts.
Proof.
  induction keys as [| key keys IH]; intros c fl c' Hbuf Hrun Hlt.
  - cbn in Hrun. inversion Hrun; subst.
    repeat split; trivial. exists []. cbn. rewrite app_nil_r. auto.
  - cbn [map_loop_a MapIndex bind] in Hrun.
    set (seg := map_seg key) in *.
    assert (Hbody :
              exists c1 ext,
                (if IsValid (lookup_key key eb)
                 then recurse (lookup_key key ea) (lookup_key key eb)
                              (push c seg)
                 else Ok (saveDiff (push c seg) (OValue (lookup_key key ea))
                                   (OString "<does not have key>")))
                = Ok c1
                /\ buff c1 = [seg]
                /\ diff c1 = diff c ++ ext
                /\ key_contribution cfg heap methods ea eb key ext).
    { destruct (lookup_key key eb) as [vb |] eqn:Eb; cbn [IsValid] in *.
      - pose proof (recurse_sound (lookup_key key ea) (Some vb) (push c seg))
          as Hs.
        destruct (recurse (lookup_key key ea) (Some vb) (push c seg))
          as [c1 | msg |] eqn:Er; try discriminate Hrun.
        destruct Hs as (Hb & _ & (ext & Hd) & _). cbn [push buff diff] in *.
        exists c1, ext. rewrite Hbuf in Hb.
        split; [reflexivity |]. split; [exact Hb |]. split; [exact Hd |].
        split; [intros Hnone; rewrite Eb in Hnone; discriminate Hnone |].
        intros v Ha Hv Hwf Hwalk. rewrite Eb in Hv.
        inversion Hv; subst vb.
        rewrite Ha in Er.
        destruct (recurse_refl v (push c seg) Hwf Hwalk) as (c2 & Hr2 & Hq).
        rewrite Hr2 in Er. inversion Er; subst c2.
        destruct Hq as (Hq & _). cbn [push diff] in Hq.
        rewrite Hq in Hd.
        rewrite <- (app_nil_r (diff c)) in Hd at 1.
        apply app_inv_head in Hd. now subst.
      - destruct (saveDiff_under_segment (push c seg) seg
                    (OValue (lookup_key key ea))
                    (OString "<does not have key>"))
          as (Sd & Sb & _).
        { cbn [push buff]. now rewrite Hbuf. }
        eexists. exists [left_key_record ea key].
        split; [reflexivity |]. split; [exact Sb |].
        split; [exact Sd |].
        split; [reflexivity |].
        intros v _ Hv. rewrite Eb in Hv. discriminate Hv. }
    destruct Hbody as (c1 & ext & Hbody & Hb1 & Hd1 & Hkey).
    rewrite Hbody in Hrun. cbn [bind] in Hrun.
    destruct (pop_after_push c c1 seg) as (Pb & Pd & _).
    { now rewrite Hb1, Hbuf. }
    destruct (Z.geb_spec (len (diff (pop c1))) (MaxDiff cfg)) as [Hge | Hlt1].
    + inversion Hrun; subst. unfold M in Hlt. lia.
    + destruct (IH (pop c1) fl c') as (Hfl & Hb' & exts & Hd' & Hall);
        trivial; try congruence.
      repeat split; trivial.
      exists (ext :: exts). split; [| now constructor].
      cbn [List.concat]. rewrite Hd', Pd, Hd1. now rewrite app_assoc.
Qed.

(** The second loop, when it returns below the cap: one record for each
    key of the right map that the left map lacks. *)
Lemma map_loop_b_records_below_cap :
  forall keys c c',
    buff c = [] ->
    map_loop_b cfg (VMap t (Some (pa, ea))) (VMap t (Some (pb, eb)))
               keys c = Ok c' ->
    len (diff c') < M ->
    diff c'
    = diff c ++ map (right_key_record eb) (filter (missing_in ea) keys).
Proof.
  induction keys as [| key keys IH]; intros c c' Hbuf Hrun Hlt.
  - cbn in Hrun. inversion Hrun; subst. cbn. now rewrite app_nil_r.
  - cbn [map_loop_b MapIndex bind filter] in *. unfold missing_in at 1.
    destruct (lookup_key key ea) as [va |] eqn:Ea; cbn [IsValid negb] in *.
    + now apply IH.
    + destruct (saveDiff_under_segment (push c (map_seg key)) (map_seg key)
                  (OString "<does not have key>")
                  (OValue (lookup_key key eb)))
        as (Sd & Sb & _).
      { cbn [push buff]. now rewrite Hbuf. }
      set (c1 := saveDiff (push c (map_seg key))
                          (OString "<does not have key>")
                          (OValue (lookup_key key eb))) in *.
      destruct (pop_after_push c c1 (map_seg key)) as (Pb & Pd & _).
      { rewrite Sb, Hbuf. reflexivity. }
      cbn [push diff] in Sd. fold (right_key_record eb key) in Sd.
      cbn [map].
      destruct (Z.geb_spec (len (diff (pop c1))) (MaxDiff cfg)) as [Hge | Hlt1].
      * inversion Hrun; subst. unfold M in Hlt. lia.
      * rewrite (IH (pop c1) c') by (trivial; congruence).
        rewrite Pd, Sd, <- app_assoc. reflexivity.
Qed.

End MapLoops.

(** C5, as the code has it: for two distinct non-nil maps of one type
    (without [Equal] method) over a well-formed heap, [Equal] returns or
    panics (in the walk of two values under a common key), and when it
    returns fewer than [MaxDiff] records (the cap was not reached), the
    result is, key by key of the left map, what that key added, followed
    by exactly one record, with ["<does not have key>"] on the left, for
    each key only the right map has; a key of the left map that the right
    map lacks added exactly one record, with the marker on the right; a
    key under which both maps hold the same well-formed value, whose walk
    is reflexive, added nothing.  (Two such values whose [Equal] method
    answers [false] do add a record.)  A map compared with itself, one
    map object on both sides, gives nothing. *)
Theorem map_keys_coverage (t : rtype) (pa pb : positive)
        (ea eb : list (Value * Value)) :
  0 <= MaxDepth cfg ->
  tyKind t = KMap ->
  methods t "Equal" = None ->
  pa <> pb ->
  wf_heap heap ->
  match Equal cfg heap methods (Some (VMap t (Some (pa, ea))))
              (Some (VMap t (Some (pb, eb)))) with
  | Ok l =>
      len l < MaxDiff cfg ->
      exists exts,
        l = List.concat exts ++ map (right_key_record eb) (only_in eb ea)
        /\ Forall2 (key_contribution cfg heap methods ea eb)
                   (map fst ea) exts
  | Panic _ => True
  | OutOfFuel => False
  end
  /\ Equal cfg heap methods (Some (VMap t (Some (pa, ea))))
           (Some (VMap t (Some (pa, ea))))
     = Ok [].
Proof.
  intros Hd Hk Hm Hp Hheap.
  split.
  2:{ rewrite Equal_diff.
      rewrite (equals_unwrapped _ _
                 (Some (VMap t (Some (pa, ea))), tyKind t, t)
                 (Some (VMap t (Some (pa, ea))), tyKind t, t)); trivial;
        try (unfold unwrap; cbn [Kind_ TypeOfValue]; now rewrite Hk).
      cbn beta iota. unfold MethodByName. cbn [TypeOfValue]. rewrite Hm, Hk.
      cbn [dispatch IsNil bind orb Pointer addr_of].
      now rewrite Z.eqb_refl. }
  destruct (Equal cfg heap methods (Some (VMap t (Some (pa, ea))))
                  (Some (VMap t (Some (pb, eb)))))
    as [l | msg |] eqn:Hrun; [intros Hlt | exact I |].
  2:{ rewrite Equal_diff in Hrun.
      pose proof (equals_sound (Some (VMap t (Some (pa, ea))))
                    (Some (VMap t (Some (pb, eb)))) 0
                    (mkCmp [] [] (FloatPrecision cfg) [])) as Hs.
      destruct (equals cfg heap methods _ _ 0 _);
        cbn [bind sound] in Hrun, Hs; [discriminate | discriminate | exact Hs]. }
  rewrite Equal_diff in Hrun.
  rewrite (equals_unwrapped _ _
             (Some (VMap t (Some (pa, ea))), tyKind t, t)
             (Some (VMap t (Some (pb, eb))), tyKind t, t)) in Hrun; trivial;
    try (unfold unwrap; cbn [Kind_ TypeOfValue]; now rewrite Hk).
  cbn beta iota in Hrun. unfold MethodByName in Hrun.
  cbn [TypeOfValue] in Hrun. rewrite Hm, Hk in Hrun.
  cbn [dispatch IsNil bind orb Pointer addr_of MapKeys] in Hrun.
  replace (Z.pos pa =? Z.pos pb) with false in Hrun
    by (symmetry; apply Z.eqb_neq; congruence).
  set (rec := fun x y => equals_rec cfg heap methods
                           (Z.to_nat (MaxDepth cfg - 0)) x y (0 + 1)) in *.
  set (c0 := mkCmp [] [] (FloatPrecision cfg) []) in *.
  assert (Hsound : forall x y c, sound M c (rec x y c)).
  { intros x y c. apply equals_rec_sound. lia. }
  assert (Hrefl : forall v c,
             wf v = true ->
             reflexive_walk cfg heap methods (Z.to_nat (MaxDepth cfg)) false v ->
             exists c', rec (Some v) (Some v) c = Ok c' /\ quiet c c').
  { intros v c Hwf Hwalk.
    apply (equals_rec_refl Hheap _ v (0 + 1) c false); trivial; [lia |].
    replace (MaxDepth cfg - (0 + 1) + 1) with (MaxDepth cfg) by lia.
    exact Hwalk. }
  destruct (map_loop_a cfg rec (VMap t (Some (pa, ea)))
                       (VMap t (Some (pb, eb))) (map fst ea) c0)
    as [[fl c1] | msg |] eqn:Ea; cbn [bind] in Hrun; try discriminate Hrun.
  fold M in Hlt.
  destruct fl.
  - pose proof (map_loop_b_sound (VMap t (Some (pa, ea)))
                  (VMap t (Some (pb, eb))) (map fst eb) c1) as Hb.
    destruct (map_loop_b cfg (VMap t (Some (pa, ea)))
                         (VMap t (Some (pb, eb))) (map fst eb) c1)
      as [c2 | msg |] eqn:Eb; cbn [bind] in Hrun; try discriminate Hrun.
    inversion Hrun; subst l. cbn [sound] in Hb.
    destruct Hb as (_ & _ & (ext2 & Hext2) & _).
    assert (Hlt1 : len (diff c1) < M).
    { rewrite Hext2, len_app in Hlt. pose proof (len_nonneg ext2). lia. }
    destruct (map_loop_a_contributions rec Hsound Hrefl t pa pb ea eb
                (map fst ea) c0 Continue c1 eq_refl Ea Hlt1)
      as (_ & Hb1 & exts & Hd1 & Hall).
    exists exts. split; [| exact Hall].
    rewrite (map_loop_b_records_below_cap t pa pb ea eb (map fst eb) c1 c2
               Hb1 Eb Hlt).
    rewrite Hd1. reflexivity.
  - inversion Hrun; subst l.
    destruct (map_loop_a_contributions rec Hsound Hrefl t pa pb ea eb
                (map fst ea) c0 Return c1 eq_refl Ea Hlt)
      as (Hfl & _). discriminate Hfl.
Qed.

(** ** Further properties of the walk *)

(** X1: A run of [equals] that returns leaves the path stack as it found it
    (every [push] is matched by a [pop]), keeps the float format, and only
    appends to the list of differences. *)
Theorem equals_balanced (a b : rValue) (level : Z) (c c' : cmp) :
  equals cfg heap methods a b level c = Ok c' ->
  buff c' = buff c
  /\ floatFormat c' = floatFormat c
  /\ exists ext, diff c' = diff c ++ ext.
Proof.
  intros H. pose proof (equals_sound a b level c) as Hs.
  rewrite H in Hs. destruct Hs as (Hb & Hf & Hd & _). auto.
Qed.

(** X2: [pop] undoes [push], and on an empty path [pop] does nothing. *)
Theorem pop_push_roundtrip (c : cmp) (name : string) (d : list string)
        (f : Z) (l : list error) :
  pop (push c name) = c
  /\ pop (mkCmp d [] f l) = mkCmp d [] f l.
Proof.
  split; [| reflexivity].
  destruct (pop_after_push c (push c name) name eq_refl)
    as (Hb & Hd & Hf & Hl).
  destruct c as [d0 b0 f0 l0], (pop (push (mkCmp d0 b0 f0 l0) name))
    as [d1 b1 f1 l1].
  cbn in Hb, Hd, Hf, Hl. congruence.
Qed.

(** X3: A nil map against a non-nil map of the same type is one difference
    with ["<nil map>"] on the nil side; two nil maps are equal. *)
Theorem nil_map_diff (t : rtype) (m : positive * list (Value * Value))
        (level : Z) (c : cmp) :
  level <= MaxDepth cfg ->
  tyKind t = KMap ->
  methods t "Equal" = None ->
  equals cfg heap methods (Some (VMap t None)) (Some (VMap t (Some m))) level c
  = Ok (saveDiff c (OString "<nil map>") (OValue (Some (VMap t (Some m)))))
  /\ equals cfg heap methods (Some (VMap t (Some m))) (Some (VMap t None))
            level c
     = Ok (saveDiff c (OValue (Some (VMap t (Some m)))) (OString "<nil map>"))
  /\ equals cfg heap methods (Some (VMap t None)) (Some (VMap t None)) level c
     = Ok c.
Proof.
  intros Hle Hk Hm.
  assert (Hu : forall x, unwrap heap (Some (VMap t x))
                                (Kind_ (Some (VMap t x)))
                                (TypeOfValue (VMap t x))
                         = Ok (Some (VMap t x), tyKind t, t)).
  { intros x. unfold unwrap. cbn [Kind_ TypeOfValue]. now rewrite Hk. }
  split; [| split].
  - rewrite (equals_unwrapped (VMap t None) (VMap t (Some m)) _ _ level c Hle
               eq_refl (Hu None) (Hu (Some m))).
    cbn beta iota. unfold MethodByName. cbn [TypeOfValue].
    rewrite Hm, Hk. reflexivity.
  - rewrite (equals_unwrapped (VMap t (Some m)) (VMap t None) _ _ level c Hle
               eq_refl (Hu (Some m)) (Hu None)).
    cbn beta iota. unfold MethodByName. cbn [TypeOfValue].
    rewrite Hm, Hk. reflexivity.
  - rewrite (equals_unwrapped (VMap t None) (VMap t None) _ _ level c Hle
               eq_refl (Hu None) (Hu None)).
    cbn beta iota. unfold MethodByName. cbn [TypeOfValue].
    rewrite Hm, Hk. reflexivity.
Qed.

(** X4: A nil slice against a non-nil slice of the same type is one
    difference with ["<nil slice>"] on the nil side; two nil slices are
    equal. *)
Theorem nil_slice_diff (t : rtype) (s : positive * list Value)
        (level : Z) (c : cmp) :
  level <= MaxDepth cfg ->
  tyKind t = KSlice ->
  methods t "Equal" = None ->
  equals cfg heap methods (Some (VSlice t None)) (Some (VSlice t (Some s)))
         level c
  = Ok (saveDiff c (OString "<nil slice>") (OValue (Some (VSlice t (Some s)))))
  /\ equals cfg heap methods (Some (VSlice t (Some s))) (Some (VSlice t None))
            level c
     = Ok (saveDiff c (OValue (Some (VSlice t (Some s))))
                    (OString "<nil slice>"))
  /\ equals cfg heap methods (Some (VSlice t None)) (Some (VSlice t None))
            level c
     = Ok c.
Proof.
  intros Hle Hk Hm.
  assert (Hu : forall x, unwrap heap (Some (VSlice t x))
                                (Kind_ (Some (VSlice t x)))
                                (TypeOfValue (VSlice t x))
                         = Ok (Some (VSlice t x), tyKind t, t)).
  { intros x. unfold unwrap. cbn [Kind_ TypeOfValue]. now rewrite Hk. }
  split; [| split].
  - rewrite (equals_unwrapped (VSlice t None) (VSlice t (Some s)) _ _ level c Hle
               eq_refl (Hu None) (Hu (Some s))).
    cbn beta iota. unfold MethodByName. cbn [TypeOfValue].
    rewrite Hm, Hk. reflexivity.
  - rewrite (equals_unwrapped (VSlice t (Some s)) (VSlice t None) _ _ level c Hle
               eq_refl (Hu (Some s)) (Hu None)).
    cbn beta iota. unfold MethodByName. cbn [TypeOfValue].
    rewrite Hm, Hk. reflexivity.
  - rewrite (equals_unwrapped (VSlice t None) (VSlice t None) _ _ level c Hle
               eq_refl (Hu None) (Hu None)).
    cbn beta iota. unfold MethodByName. cbn [TypeOfValue].
    rewrite Hm, Hk. reflexivity.
Qed.

(** X5: Two values of one primitive type (bool, signed or unsigned integer,
    float, string) without [Equal] method give no difference when the
    rule of their kind finds them equal, and otherwise the single record
    of the two native values. *)
Theorem primitive_compare (x y : Value) :
  0 <= MaxDepth cfg ->
  leaf_pair methods x y = true ->
  Equal cfg heap methods (Some x) (Some y)
  = Ok (if leaf_differs (FloatPrecision cfg) x y
        then [(Sprint_v (leaf_operand x) ++ " != "
                 ++ Sprint_v (leaf_operand y))%string]
        else []).
Proof.
  intros Hd Hleaf. unfold Equal, equals. rewrite fuel_succ by lia.
  rewrite equals_rec_leaf by trivial. cbn [bind floatFormat].
  destruct (leaf_differs (FloatPrecision cfg) x y); reflexivity.
Qed.

(** X6: With a negative [MaxDepth] nothing is compared: [Equal] returns the
    empty result on every input, nil included. *)
Theorem negative_depth_compares_nothing (a b : rValue) :
  MaxDepth cfg < 0 ->
  Equal cfg heap methods a b = Ok [].
Proof.
  intros Hneg. unfold Equal, equals.
  assert (Hgt : (0 >? MaxDepth cfg) = true) by (apply Z.gtb_lt; lia).
  destruct (Z.to_nat _); cbn [equals_rec]; rewrite Hgt; cbn [bind];
    destruct (logError_fields (mkCmp [] [] (FloatPrecision cfg) [])
                              ErrMaxRecursion) as (-> & _); reflexivity.
Qed.

(** X7: Two values of one type whose kind (after unwrapping) has no case in
    the switch, and no [Equal] method, are never found different: [equals]
    records nothing, it only logs [ErrNotHandled] when logging is on.
    This covers arrays, channels, functions, complex numbers, uintptr and a
    pointer or interface reached behind another pointer. *)
Theorem unhandled_kind_equal (a b a1 b1 : Value) (ka kb : Kind)
        (ta tb : rtype) (level : Z) (c : cmp) :
  level <= MaxDepth cfg ->
  TypeOfValue a = TypeOfValue b ->
  unwrap heap (Some a) (Kind_ (Some a)) (TypeOfValue a) = Ok (Some a1, ka, ta) ->
  unwrap heap (Some b) (Kind_ (Some b)) (TypeOfValue b) = Ok (Some b1, kb, tb) ->
  MethodByName methods a1 "Equal" = None ->
  has_rule ka = false ->
  equals cfg heap methods (Some a) (Some b) level c
  = Ok (logError cfg c ErrNotHandled)
  /\ diff (logError cfg c ErrNotHandled) = diff c.
Proof.
  intros Hle Ht Ha Hb Hm Hrule. split; [| apply logError_fields].
  rewrite (equals_unwrapped a b _ _ level c Hle Ht Ha Hb).
  cbn beta iota. rewrite Hm.
  destruct ka; try discriminate Hrule; reflexivity.
Qed.

(** X8: A pointer or an interface is compared by what it holds, at the same
    level: when both sides unwrap to values of one type that is not itself
    a pointer or interface, comparing the wrappers is comparing the
    values. *)
Theorem indirection_compared_by_target (a b x y : Value) (ka kb : Kind)
        (ta tb : rtype) (level : Z) (c : cmp) :
  level <= MaxDepth cfg ->
  TypeOfValue a = TypeOfValue b ->
  unwrap heap (Some a) (Kind_ (Some a)) (TypeOfValue a) = Ok (Some x, ka, ta) ->
  unwrap heap (Some b) (Kind_ (Some b)) (TypeOfValue b) = Ok (Some y, kb, tb) ->
  TypeOfValue x = TypeOfValue y ->
  isIndirect (tyKind (TypeOfValue x)) = false ->
  equals cfg heap methods (Some a) (Some b) level c
  = equals cfg heap methods (Some x) (Some y) level c.
Proof.
  intros Hle Ht Ha Hb Hxy Hind.
  rewrite (equals_unwrapped a b _ _ level c Hle Ht Ha Hb).
  destruct (unwrap_present a x ka ta Ha) as (-> & ->).
  destruct (unwrap_present b y kb tb Hb) as (-> & ->).
  rewrite (equals_unwrapped x y
             (Some x, tyKind (TypeOfValue x), TypeOfValue x)
             (Some y, tyKind (TypeOfValue y), TypeOfValue y) level c Hle Hxy).
  - reflexivity.
  - unfold unwrap. cbn [Kind_]. now rewrite Hind.
  - unfold unwrap. cbn [Kind_]. now rewrite <- Hxy, Hind.
Qed.

(** X9: Behind an interface the dynamic types are not compared again: two
    integers of possibly different integer types held by interfaces of
    one static type give no type mismatch, only the comparison of their
    numbers. *)
Theorem interface_dynamic_types_not_compared (t tx ty : rtype) (i j : Z)
        (level : Z) (c : cmp) :
  level <= MaxDepth cfg ->
  tyKind t = KInterface ->
  is_int_kind (tyKind tx) = true ->
  is_int_kind (tyKind ty) = true ->
  methods tx "Equal" = None ->
  equals cfg heap methods (Some (VIface t (Some (VInt tx i))))
         (Some (VIface t (Some (VInt ty j)))) level c
  = Ok (if i =? j then c else saveDiff c (OInt i) (OInt j)).
Proof.
  intros Hle Hk Hx Hy Hm.
  rewrite (equals_unwrapped (VIface t (Some (VInt tx i)))
             (VIface t (Some (VInt ty j)))
             (Some (VInt tx i), tyKind tx, tx)
             (Some (VInt ty j), tyKind ty, ty) level c Hle eq_refl);
    try (unfold unwrap; cbn [Kind_ TypeOfValue]; rewrite Hk; reflexivity).
  cbn beta iota. unfold MethodByName. cbn [TypeOfValue]. rewrite Hm.
  destruct (tyKind tx); try discriminate Hx; cbn [dispatch Int_ bind];
    destruct (i =? j); reflexivity.
Qed.

(** *** Fields beyond the depth cap *)

Lemma struct_loop_quiet (recurse : rValue -> rValue -> cmp -> res cmp)
      (t : rtype) (xs ys : list Value) :
  (forall x y c, exists c', recurse x y c = Ok c' /\ quiet c c') ->
  List.length xs = List.length (tyFields t) ->
  List.length ys = List.length (tyFields t) ->
  forall todo i c,
    (i + todo = List.length (tyFields t))%nat ->
    exists c',
      struct_loop cfg recurse (VStruct t xs) (VStruct t ys) t todo i c = Ok c'
      /\ quiet c c'.
Proof.
  intros Hrec Hxs Hys.
  induction todo as [| todo IH]; intros i c Hi; cbn [struct_loop].
  - exists c. split; [reflexivity | apply quiet_refl].
  - unfold TypeField.
    destruct (nth_error (tyFields t) i) as [f |] eqn:Ef.
    2:{ apply nth_error_None in Ef. lia. }
    cbn [bind].
    destruct (negb (PkgPath f =? "")%string
              && negb (CompareUnexportedFields cfg)).
    { apply IH. lia. }
    cbn [Field].
    destruct (nth_error xs i) as [x |] eqn:Ex.
    2:{ apply nth_error_None in Ex. lia. }
    destruct (nth_error ys i) as [y |] eqn:Ey.
    2:{ apply nth_error_None in Ey. lia. }
    cbn [bind].
    destruct (Hrec (Some x) (Some y) (push c (Name f))) as (c1 & Hrun & Hq).
    rewrite Hrun. cbn [bind].
    pose proof (quiet_pop c c1 (Name f) Hq) as Hq'.
    destruct (len (diff (pop c1)) >=? MaxDiff cfg).
    + now exists (pop c1).
    + destruct (IH (S i) (pop c1)) as (c2 & Hrun2 & Hq2); [lia |].
      exists c2. split; [exact Hrun2 | eapply quiet_trans; eauto].
Qed.

(** X10: The fields of a struct that sits exactly at [MaxDepth] are never
    compared: whatever they hold, nothing is recorded.  In particular
    with [MaxDepth = 0] any two structs of one type are equal for
    [Equal]. *)
Theorem fields_beyond_depth_unseen (t : rtype) (xs ys : list Value)
        (c : cmp) :
  tyKind t = KStruct ->
  methods t "Equal" = None ->
  List.length xs = List.length (tyFields t) ->
  List.length ys = List.length (tyFields t) ->
  (exists c',
      equals cfg heap methods (Some (VStruct t xs)) (Some (VStruct t ys))
             (MaxDepth cfg) c = Ok c'
      /\ diff c' = diff c)
  /\ (MaxDepth cfg = 0 ->
      Equal cfg heap methods (Some (VStruct t xs)) (Some (VStruct t ys))
      = Ok []).
Proof.
  intros Hk Hm Hxs Hys.
  assert (Hgen : forall c0,
             exists c',
               equals cfg heap methods (Some (VStruct t xs))
                      (Some (VStruct t ys)) (MaxDepth cfg) c0 = Ok c'
               /\ quiet c0 c').
  { intros c0.
    rewrite (equals_unwrapped (VStruct t xs) (VStruct t ys)
               (Some (VStruct t xs), tyKind t, t)
               (Some (VStruct t ys), tyKind t, t) (MaxDepth cfg) c0);
      trivial; try lia;
      try (unfold unwrap; cbn [Kind_ TypeOfValue]; now rewrite Hk).
    cbn beta iota. unfold MethodByName. cbn [TypeOfValue]. rewrite Hm, Hk.
    cbn [dispatch NumField bind].
    apply struct_loop_quiet; trivial.
    intros x y c1.
    exists (logError cfg c1 ErrMaxRecursion).
    split; [| apply quiet_logError].
    assert (Hgt : (MaxDepth cfg + 1 >? MaxDepth cfg) = true)
      by (apply Z.gtb_lt; lia).
    destruct (Z.to_nat _); cbn [equals_rec]; now rewrite Hgt. }
  split.
  - destruct (Hgen c) as (c' & Hrun & Hd & _). now exists c'.
  - intros H0. rewrite Equal_diff, <- H0.
    destruct (Hgen (mkCmp [] [] (FloatPrecision cfg) []))
      as (c' & Hrun & Hd & _).
    rewrite Hrun. cbn [bind]. now rewrite Hd.
Qed.

(** *** Structs with leaf fields *)

Lemma skip_test (f : StructField) :
  negb (PkgPath f =? "")%string && negb (CompareUnexportedFields cfg)
  = negb (visible cfg f).
Proof.
  unfold visible.
  destruct (PkgPath f =? "")%string, (CompareUnexportedFields cfg);
    reflexivity.
Qed.

Lemma struct_loop_records (fuel : nat) (t : rtype) (level : Z) :
  level + 1 <= MaxDepth cfg ->
  forall (fs pf : list StructField) (xs ys pa pb : list Value) (c : cmp),
    tyFields t = pf ++ fs ->
    List.length pa = List.length pf ->
    List.length pb = List.length pf ->
    fields_are_leaves cfg methods fs xs ys = true ->
    buff c = [] ->
    len (diff c) < M ->
    exists c',
      struct_loop cfg
        (fun x y => equals_rec cfg heap methods (S fuel) x y (level + 1))
        (VStruct t (pa ++ xs)) (VStruct t (pb ++ ys)) t
        (List.length fs) (List.length pf) c = Ok c'
      /\ diff c'
         = diff c ++ firstn (Z.to_nat (M - len (diff c)))
                            (field_records cfg (floatFormat c) fs xs ys)
      /\ buff c' = []
      /\ floatFormat c' = floatFormat c.
Proof.
  intros Hlevel.
  induction fs as [| f fs IH];
    intros pf xs ys pa pb c Ht Hpa Hpb Hleaf Hbuf Hlt.
  - exists c. cbn. rewrite firstn_nil, app_nil_r. auto.
  - destruct xs as [| x xs], ys as [| y ys]; try discriminate Hleaf.
    cbn [fields_are_leaves] in Hleaf. apply andb_prop in Hleaf.
    destruct Hleaf as [Hf Hleaf].
    destruct c as [d bf ff lg]. cbn [diff buff floatFormat] in *. subst bf.
    assert (Hnext :
              forall d',
                len d' < M ->
                exists c',
                  struct_loop cfg
                    (fun x0 y0 =>
                       equals_rec cfg heap methods (S fuel) x0 y0 (level + 1))
                    (VStruct t (pa ++ x :: xs)) (VStruct t (pb ++ y :: ys)) t
                    (List.length fs) (S (List.length pf)) (mkCmp d' [] ff lg)
                  = Ok c'
                  /\ diff c'
                     = d' ++ firstn (Z.to_nat (M - len d'))
                                    (field_records cfg ff fs xs ys)
                  /\ buff c' = [] /\ floatFormat c' = ff).
    { intros d' Hd'.
      specialize (IH (pf ++ [f]) xs ys (pa ++ [x]) (pb ++ [y])
                     (mkCmp d' [] ff lg)).
      rewrite <- !app_assoc in IH. cbn [app] in IH.
      rewrite !length_app in IH. cbn [List.length] in IH.
      rewrite !Nat.add_1_r in IH.
      apply IH; trivial; congruence. }
    cbn [struct_loop List.length field_records].
    unfold TypeField. rewrite Ht, (nth_error_middle pf fs f) by reflexivity.
    cbn [bind]. rewrite skip_test.
    destruct (visible cfg f) eqn:Hv; cbn [negb andb orb app] in *.
    2:{ apply Hnext. exact Hlt. }
    cbn [Field]. rewrite (nth_error_middle pa xs x) by congruence.
    rewrite (nth_error_middle pb ys y) by congruence.
    cbn [bind]. rewrite equals_rec_leaf by (trivial; lia).
    unfold push. cbn [bind diff buff floatFormat logged app].
    destruct (leaf_differs ff x y).
    + unfold saveDiff, pop. cbn [buff diff floatFormat logged].
      change (0 <? len [Name f]) with true. cbn iota.
      cbn [buff diff floatFormat logged removelast String.concat].
      change (0 <? len [Name f]) with true. cbn iota.
      cbn [buff diff floatFormat logged removelast app].
      change (Name f ++ ": " ++ Sprint_v (leaf_operand x) ++ " != "
                ++ Sprint_v (leaf_operand y))%string
        with (field_record f x y).
      set (r := field_record f x y).
      destruct (Z.geb_spec (len (d ++ [r])) (MaxDiff cfg)) as [Hge | Hlt'].
      * eexists. split; [reflexivity |]. cbn [diff buff floatFormat].
        repeat split; trivial.
        symmetry. apply firstn_cap_stop; trivial. unfold M. lia.
      * destruct (Hnext (d ++ [r]) Hlt') as (c' & Hrun & Hd & Hb & Hff).
        exists c'. split; [exact Hrun |]. repeat split; trivial.
        rewrite Hd. symmetry. now apply firstn_cap_step.
    + unfold pop. cbn [buff diff floatFormat logged].
      change (0 <? len [Name f]) with true. cbn iota.
      cbn [buff diff floatFormat logged removelast app].
      destruct (Z.geb_spec (len d) (MaxDiff cfg)) as [Hge | _].
      { unfold M in Hlt. lia. }
      apply Hnext. exact Hlt.
Qed.

(** C3, as the code has it: with a cap of at least 1, a call of [Equal]
    that returns gives at most [MaxDiff] differences, on every pair of
    inputs (and every call returns or panics); and for two flat records,
    that is two structs of one type without [Equal] method whose visited
    fields are leaves (a field is visited when it is exported or
    [CompareUnexportedFields] is set, and depth 1 is within [MaxDepth]),
    of which at least [MaxDiff] visited fields differ, the result has
    exactly [MaxDiff] elements. *)
Theorem diff_cap :
  1 <= MaxDiff cfg ->
  (forall a b : rValue,
      match Equal cfg heap methods a b with
      | Ok l => len l <= MaxDiff cfg
      | Panic _ => True
      | OutOfFuel => False
      end)
  /\ (forall (t : rtype) (xs ys : list Value),
         1 <= MaxDepth cfg ->
         tyKind t = KStruct ->
         methods t "Equal" = None ->
         fields_are_leaves cfg methods (tyFields t) xs ys = true ->
         MaxDiff cfg
         <= len (field_records cfg (FloatPrecision cfg) (tyFields t) xs ys) ->
         exists l,
           Equal cfg heap methods (Some (VStruct t xs)) (Some (VStruct t ys))
           = Ok l
           /\ len l = MaxDiff cfg).
Proof.
  intros HM. split; [intros a b; now apply Equal_within_cap |].
  intros t xs ys HD Hk Hm Hleaf Hcount. rewrite Equal_diff.
  rewrite (equals_unwrapped (VStruct t xs) (VStruct t ys)
             (Some (VStruct t xs), tyKind t, t)
             (Some (VStruct t ys), tyKind t, t)); trivial; try lia;
    try (unfold unwrap; cbn [Kind_ TypeOfValue]; now rewrite Hk).
  cbn beta iota. unfold MethodByName. cbn [TypeOfValue]. rewrite Hm, Hk.
  cbn [dispatch NumField bind].
  replace (Z.to_nat (MaxDepth cfg - 0))
    with (S (Z.to_nat (MaxDepth cfg - 1)))
    by (rewrite <- Z2Nat.inj_succ by lia; f_equal; lia).
  destruct (struct_loop_records (Z.to_nat (MaxDepth cfg - 1)) t 0 HD
              (tyFields t) [] xs ys [] []
              (mkCmp [] [] (FloatPrecision cfg) []))
    as (c' & Hrun & Hd & _); trivial.
  { unfold len. simpl. fold M in HM. lia. }
  cbn [app List.length] in Hrun. rewrite Hrun. cbn [bind].
  exists (diff c'). split; [reflexivity |].
  rewrite Hd. cbn [diff floatFormat app]. unfold len in *.
  rewrite length_firstn. cbn [List.length]. fold M in HM, Hcount |- *. lia.
Qed.

(** X11: Two structs of one type (without [Equal] method) whose visited fields
    are leaves compare to exactly the records ["Name: x != y"] of the
    visited fields that differ, in declaration order, cut at [MaxDiff];
    fields that are not exported are skipped unless
    [CompareUnexportedFields] is set. *)
Theorem struct_field_records (t : rtype) (xs ys : list Value) :
  1 <= MaxDiff cfg ->
  1 <= MaxDepth cfg ->
  tyKind t = KStruct ->
  methods t "Equal" = None ->
  fields_are_leaves cfg methods (tyFields t) xs ys = true ->
  Equal cfg heap methods (Some (VStruct t xs)) (Some (VStruct t ys))
  = Ok (firstn (Z.to_nat (MaxDiff cfg))
               (field_records cfg (FloatPrecision cfg) (tyFields t) xs ys)).
Proof.
  intros HM HD Hk Hm Hleaf. rewrite Equal_diff.
  rewrite (equals_unwrapped (VStruct t xs) (VStruct t ys)
             (Some (VStruct t xs), tyKind t, t)
             (Some (VStruct t ys), tyKind t, t)); trivial; try lia;
    try (unfold unwrap; cbn [Kind_ TypeOfValue]; now rewrite Hk).
  cbn beta iota. unfold MethodByName. cbn [TypeOfValue]. rewrite Hm, Hk.
  cbn [dispatch NumField bind].
  replace (Z.to_nat (MaxDepth cfg - 0))
    with (S (Z.to_nat (MaxDepth cfg - 1)))
    by (rewrite <- Z2Nat.inj_succ by lia; f_equal; lia).
  destruct (struct_loop_records (Z.to_nat (MaxDepth cfg - 1)) t 0 HD
              (tyFields t) [] xs ys [] []
              (mkCmp [] [] (FloatPrecision cfg) []))
    as (c' & Hrun & Hd & _); trivial.
  { unfold len. simpl. fold M in HM. lia. }
  cbn [app List.length] in Hrun. rewrite Hrun. cbn [bind].
  rewrite Hd. cbn [diff floatFormat app]. unfold len. cbn [List.length].
  now rewrite Z.sub_0_r.
Qed.

Lemma struct_loop_all_skipped
      (recurse : rValue -> rValue -> cmp -> res cmp) (a b : Value)
      (t : rtype) (c : cmp) :
  forallb (fun f => negb (visible cfg f)) (tyFields t) = true ->
  forall todo i,
    (i + todo = List.length (tyFields t))%nat ->
    struct_loop cfg recurse a b t todo i c = Ok c.
Proof.
  intros Hall.
  induction todo as [| todo IH]; intros i Hi; cbn [struct_loop]; trivial.
  unfold TypeField.
  destruct (nth_error (tyFields t) i) as [f |] eqn:Ef.
  2:{ apply nth_error_None in Ef. lia. }
  cbn [bind]. rewrite skip_test.
  rewrite (forallb_nth_error _ _ i f Hall Ef). apply IH. lia.
Qed.

(** X12: Fields that are not exported do not count: with
    [CompareUnexportedFields] off, two structs of a type whose fields are
    all unexported are equal for [Equal] whatever the fields hold. *)
Theorem unexported_fields_ignored (t : rtype) (xs ys : list Value) :
  0 <= MaxDepth cfg ->
  tyKind t = KStruct ->
  methods t "Equal" = None ->
  forallb (fun f => negb (visible cfg f)) (tyFields t) = true ->
  Equal cfg heap methods (Some (VStruct t xs)) (Some (VStruct t ys)) = Ok [].
Proof.
  intros HD Hk Hm Hall. rewrite Equal_diff.
  rewrite (equals_unwrapped (VStruct t xs) (VStruct t ys)
             (Some (VStruct t xs), tyKind t, t)
             (Some (VStruct t ys), tyKind t, t)); trivial;
    try (unfold unwrap; cbn [Kind_ TypeOfValue]; now rewrite Hk).
  cbn beta iota. unfold MethodByName. cbn [TypeOfValue]. rewrite Hm, Hk.
  cbn [dispatch NumField bind].
  now rewrite struct_loop_all_skipped.
Qed.

(** *** Maps with leaf values *)

Section LeafMaps.

Variables (fuel : nat) (level : Z).
Hypothesis level_ok : level + 1 <= MaxDepth cfg.

Variables (t : rtype) (pa pb : positive) (ea eb : list (Value * Value)).

Let rec_leaf : rValue -> rValue -> cmp -> res cmp :=
  fun x y => equals_rec cfg heap methods (S fuel) x y (level + 1).

Lemma map_loop_a_records :
  forall keys (d : list string) (ff : Z) (lg : list error),
    forallb (common_leaf methods ea eb) keys = true ->
    len d < M ->
    exists fl c',
      map_loop_a cfg rec_leaf (VMap t (Some (pa, ea))) (VMap t (Some (pb, eb)))
                 keys (mkCmp d [] ff lg) = Ok (fl, c')
      /\ diff c'
         = d ++ firstn (Z.to_nat (M - len d))
                       (flat_map (key_records ff ea eb) keys)
      /\ buff c' = []
      /\ floatFormat c' = ff
      /\ (fl = Return -> M <= len (diff c'))
      /\ (fl = Continue -> len (diff c') < M).
Proof.
  induction keys as [| key keys IH]; intros d ff lg Hall Hlt.
  - exists Continue, (mkCmp d [] ff lg). cbn. rewrite firstn_nil, app_nil_r.
    repeat split; trivial. discriminate.
  - cbn [forallb] in Hall. apply andb_prop in Hall.
    destruct Hall as [Hkey Hall].
    cbn [map_loop_a MapIndex bind flat_map]. unfold push.
    cbn [diff buff floatFormat logged app].
    unfold common_leaf in Hkey. unfold key_records at 1.
    destruct (lookup_key key eb) as [vb |] eqn:Eb; cbn [IsValid].
    + destruct (lookup_key key ea) as [va |] eqn:Ea; [| discriminate].
      unfold rec_leaf at 1. rewrite equals_rec_leaf by (trivial; lia).
      cbn [bind floatFormat].
      destruct (leaf_differs ff va vb).
      * unfold saveDiff, pop. cbn [buff diff floatFormat logged].
        change (0 <? len [map_seg key]) with true. cbn iota.
        cbn [buff diff floatFormat logged removelast String.concat].
        change (0 <? len [map_seg key]) with true. cbn iota.
        cbn [buff diff floatFormat logged removelast app].
        change (map_seg key ++ ": " ++ Sprint_v (leaf_operand va) ++ " != "
                  ++ Sprint_v (leaf_operand vb))%string
          with (value_record key va vb).
        set (r := value_record key va vb).
        destruct (Z.geb_spec (len (d ++ [r])) (MaxDiff cfg)) as [Hge | Hlt'].
        -- exists Return. eexists. split; [reflexivity |].
           cbn [diff buff floatFormat].
           repeat split; trivial; try discriminate.
           symmetry. apply firstn_cap_stop; trivial. unfold M. lia.
        -- destruct (IH (d ++ [r]) ff lg Hall Hlt')
             as (fl & c' & Hrun & Hd & Hb & Hff & Hfl).
           exists fl, c'. split; [exact Hrun |]. repeat split; try tauto.
           rewrite Hd. symmetry. now apply firstn_cap_step.
      * unfold pop. cbn [buff diff floatFormat logged].
        change (0 <? len [map_seg key]) with true. cbn iota.
        cbn [buff diff floatFormat logged removelast app].
        destruct (Z.geb_spec (len d) (MaxDiff cfg)) as [Hge | _].
        { unfold M in Hlt. lia. }
        apply IH; trivial.
    + cbn [bind].
      unfold saveDiff, pop. cbn [buff diff floatFormat logged].
      change (0 <? len [map_seg key]) with true. cbn iota.
      cbn [buff diff floatFormat logged removelast String.concat].
      change (0 <? len [map_seg key]) with true. cbn iota.
      cbn [buff diff floatFormat logged removelast app].
      change (map_seg key ++ ": " ++ Sprint_v (OValue (lookup_key key ea))
                ++ " != " ++ Sprint_v (OString "<does not have key>"))%string
        with (left_key_record ea key).
      set (r := left_key_record ea key).
      destruct (Z.geb_spec (len (d ++ [r])) (MaxDiff cfg)) as [Hge | Hlt'].
      * exists Return. eexists. split; [reflexivity |].
        cbn [diff buff floatFormat].
        repeat split; trivial; try discriminate.
        symmetry. apply firstn_cap_stop; trivial. unfold M. lia.
      * destruct (IH (d ++ [r]) ff lg Hall Hlt')
          as (fl & c' & Hrun & Hd & Hb & Hff & Hfl).
        exists fl, c'. split; [exact Hrun |]. repeat split; try tauto.
        rewrite Hd. symmetry. now apply firstn_cap_step.
Qed.

Lemma map_loop_b_records :
  forall keys (d : list string) (ff : Z) (lg : list error),
    len d < M ->
    exists c',
      map_loop_b cfg (VMap t (Some (pa, ea))) (VMap t (Some (pb, eb)))
                 keys (mkCmp d [] ff lg) = Ok c'
      /\ diff c'
         = d ++ firstn (Z.to_nat (M - len d))
                       (map (right_key_record eb)
                            (filter (missing_in ea) keys)).
Proof.
  induction keys as [| key keys IH]; intros d ff lg Hlt.
  - eexists. split; [reflexivity |]. cbn. now rewrite firstn_nil, app_nil_r.
  - cbn [map_loop_b MapIndex bind filter]. unfold missing_in at 1.
    destruct (lookup_key key ea) as [va |] eqn:Ea; cbn [IsValid negb].
    + now apply IH.
    + unfold push, saveDiff, pop. cbn [buff diff floatFormat logged app].
      change (0 <? len [map_seg key]) with true. cbn iota.
      cbn [buff diff floatFormat logged removelast String.concat].
      change (0 <? len [map_seg key]) with true. cbn iota.
      cbn [buff diff floatFormat logged removelast app map].
      change (map_seg key ++ ": " ++ Sprint_v (OString "<does not have key>")
                ++ " != " ++ Sprint_v (OValue (lookup_key key eb)))%string
        with (right_key_record eb key).
      set (r := right_key_record eb key).
      destruct (Z.geb_spec (len (d ++ [r])) (MaxDiff cfg)) as [Hge | Hlt'].
      * eexists. split; [reflexivity |]. cbn [diff].
        symmetry. apply firstn_cap_stop; trivial. unfold M. lia.
      * destruct (IH (d ++ [r]) ff lg Hlt') as (c' & Hrun & Hd).
        exists c'. split; [exact Hrun |].
        rewrite Hd. symmetry. now apply firstn_cap_step.
Qed.

End LeafMaps.

(** X13: Two distinct non-nil maps of one type (without [Equal] method) whose
    values under common keys are leaves compare to: for each key of the
    left map, in its order, the record ["map[k]: x != y"] when both have
    the key and the values differ, the record against
    ["<does not have key>"] when the right map lacks it; then one record
    for each key only the right map has; the whole cut at [MaxDiff]. *)
Theorem map_value_records (t : rtype) (pa pb : positive)
        (ea eb : list (Value * Value)) :
  1 <= MaxDiff cfg ->
  1 <= MaxDepth cfg ->
  tyKind t = KMap ->
  methods t "Equal" = None ->
  pa <> pb ->
  forallb (common_leaf methods ea eb) (map fst ea) = true ->
  Equal cfg heap methods (Some (VMap t (Some (pa, ea))))
        (Some (VMap t (Some (pb, eb))))
  = Ok (firstn (Z.to_nat (MaxDiff cfg))
               (map_records (FloatPrecision cfg) ea eb)).
Proof.
  intros HM HD Hk Hm Hp Hleaf. rewrite Equal_diff.
  rewrite (equals_unwrapped _ _
             (Some (VMap t (Some (pa, ea))), tyKind t, t)
             (Some (VMap t (Some (pb, eb))), tyKind t, t)); trivial;
    try lia;
    try (unfold unwrap; cbn [Kind_ TypeOfValue]; now rewrite Hk).
  cbn beta iota. unfold MethodByName. cbn [TypeOfValue]. rewrite Hm, Hk.
  cbn [dispatch IsNil bind orb Pointer addr_of MapKeys].
  replace (Z.pos pa =? Z.pos pb) with false
    by (symmetry; apply Z.eqb_neq; congruence).
  replace (Z.to_nat (MaxDepth cfg - 0))
    with (S (Z.to_nat (MaxDepth cfg - 1)))
    by (rewrite <- Z2Nat.inj_succ by lia; f_equal; lia).
  assert (H0 : len (@nil string) < M) by (unfold len; simpl; fold M in HM; lia).
  destruct (map_loop_a_records (Z.to_nat (MaxDepth cfg - 1)) 0 HD t pa pb
              ea eb (map fst ea) [] (FloatPrecision cfg) [] Hleaf H0)
    as (fl & c1 & Hrun & Hd1 & Hb1 & Hf1 & Hret & Hcont).
  rewrite Hrun. cbn [bind]. cbn [app] in Hd1.
  change (len (@nil string)) with 0 in Hd1. rewrite Z.sub_0_r in Hd1.
  fold M. unfold map_records.
  set (RA := flat_map (key_records (FloatPrecision cfg) ea eb) (map fst ea))
    in *.
  set (RB := map (right_key_record eb) (only_in eb ea)).
  rewrite firstn_app.
  destruct fl.
  - specialize (Hcont eq_refl).
    assert (Hshort : (List.length RA < Z.to_nat M)%nat).
    { rewrite Hd1 in Hcont. unfold len in Hcont.
      rewrite length_firstn in Hcont. lia. }
    rewrite (firstn_all2 (n := Z.to_nat M) RA) in * by lia.
    destruct c1 as [d1 b1 f1 l1]. cbn [diff buff] in *. subst d1 b1.
    destruct (map_loop_b_records t pa pb ea eb (map fst eb) RA f1 l1)
      as (c2 & Hrun2 & Hd2).
    { unfold len. lia. }
    rewrite Hrun2. cbn [bind]. rewrite Hd2. fold (only_in eb ea). fold RB.
    do 3 f_equal. unfold len. lia.
  - specialize (Hret eq_refl). cbn [bind].
    assert (Hlong : (Z.to_nat M <= List.length RA)%nat).
    { rewrite Hd1 in Hret. unfold len in Hret.
      rewrite length_firstn in Hret. lia. }
    replace (Z.to_nat M - List.length RA)%nat with 0%nat by lia.
    cbn [firstn]. now rewrite app_nil_r, Hd1.
Qed.

(** *** Slices with leaf elements *)

Section LeafSlices.

Variables (fuel : nat) (level : Z).
Hypothesis level_ok : level + 1 <= MaxDepth cfg.

Variables (t : rtype) (pa pb : positive) (la lb : list Value).

Lemma slice_loop_common :
  forall (xs ys pre_a pre_b ra rb : list Value) (i : nat)
         (d : list string) (ff : Z) (lg : list error),
    i = List.length pre_a ->
    i = List.length pre_b ->
    la = pre_a ++ xs ++ ra ->
    lb = pre_b ++ ys ++ rb ->
    leaf_pairs methods xs ys = true ->
    len d < M ->
    exists c',
      slice_loop cfg
        (fun x y => equals_rec cfg heap methods (S fuel) x y (level + 1))
        (VSlice t (Some (pa, la))) (VSlice t (Some (pb, lb)))
        (List.length la) (List.length lb) (List.length xs) i
        (mkCmp d [] ff lg) = Ok c'
      /\ diff c'
         = d ++ firstn (Z.to_nat (M - len d)) (common_records ff i xs ys)
      /\ buff c' = []
      /\ floatFormat c' = ff.
Proof.
  induction xs as [| x xs IH];
    intros ys pre_a pre_b ra rb i d ff lg Hia Hib Hla Hlb Hleaf Hlt.
  - eexists. split; [reflexivity |]. cbn.
    rewrite firstn_nil, app_nil_r. auto.
  - destruct ys as [| y ys]; [discriminate Hleaf |].
    cbn [leaf_pairs] in Hleaf. apply andb_prop in Hleaf.
    destruct Hleaf as [Hxy Hleaf].
    assert (Hnext :
              forall d',
                len d' < M ->
                exists c',
                  slice_loop cfg
                    (fun x0 y0 =>
                       equals_rec cfg heap methods (S fuel) x0 y0 (level + 1))
                    (VSlice t (Some (pa, la))) (VSlice t (Some (pb, lb)))
                    (List.length la) (List.length lb) (List.length xs) (S i)
                    (mkCmp d' [] ff lg) = Ok c'
                  /\ diff c'
                     = d' ++ firstn (Z.to_nat (M - len d'))
                                    (common_records ff (S i) xs ys)
                  /\ buff c' = [] /\ floatFormat c' = ff).
    { intros d' Hd'.
      apply (IH ys (pre_a ++ [x]) (pre_b ++ [y]) ra rb); trivial.
      - rewrite length_app. simpl. lia.
      - rewrite length_app. simpl. lia.
      - now rewrite <- app_assoc.
      - now rewrite <- app_assoc. }
    cbn [slice_loop List.length common_records].
    assert (Ha : (i <? List.length la)%nat = true).
    { apply Nat.ltb_lt. rewrite Hla, length_app. simpl. lia. }
    assert (Hb : (i <? List.length lb)%nat = true).
    { apply Nat.ltb_lt. rewrite Hlb, length_app. simpl. lia. }
    rewrite Ha, Hb. cbn [andb Index].
    assert (Ea : nth_error la i = Some x)
      by (rewrite Hla; now apply nth_error_middle).
    assert (Eb : nth_error lb i = Some y)
      by (rewrite Hlb; now apply nth_error_middle).
    rewrite Ea, Eb. cbn [bind].
    rewrite equals_rec_leaf by (trivial; lia).
    unfold push. cbn [bind diff buff floatFormat logged app].
    destruct (leaf_differs ff x y).
    + unfold saveDiff, pop. cbn [buff diff floatFormat logged].
      change (0 <? len [slice_seg i]) with true. cbn iota.
      cbn [buff diff floatFormat logged removelast String.concat].
      change (0 <? len [slice_seg i]) with true. cbn iota.
      cbn [buff diff floatFormat logged removelast app].
      change (slice_seg i ++ ": " ++ Sprint_v (leaf_operand x) ++ " != "
                ++ Sprint_v (leaf_operand y))%string
        with (element_record i x y).
      set (r := element_record i x y).
      destruct (Z.geb_spec (len (d ++ [r])) (MaxDiff cfg)) as [Hge | Hlt'].
      * eexists. split; [reflexivity |]. cbn [diff buff floatFormat].
        repeat split; trivial.
        symmetry. apply firstn_cap_stop; trivial. unfold M. lia.
      * destruct (Hnext (d ++ [r]) Hlt') as (c' & Hrun & Hd & Hbf & Hff).
        exists c'. split; [exact Hrun |]. repeat split; trivial.
        rewrite Hd. symmetry. now apply firstn_cap_step.
    + unfold pop. cbn [buff diff floatFormat logged].
      change (0 <? len [slice_seg i]) with true. cbn iota.
      cbn [buff diff floatFormat logged removelast app].
      destruct (Z.geb_spec (len d) (MaxDiff cfg)) as [Hge | _].
      { unfold M in Hlt. lia. }
      apply Hnext. exact Hlt.
Qed.

End LeafSlices.

Lemma common_records_firstn (prec : Z) (m : nat) :
  forall (la lb : list Value) (i : nat),
    (m = Nat.min (List.length la) (List.length lb))%nat ->
    common_records prec i (firstn m la) (firstn m lb)
    = common_records prec i la lb.
Proof.
  induction m as [| m IH]; intros la lb i Hm.
  - destruct la, lb; cbn in *; trivial; discriminate.
  - destruct la as [| x la], lb as [| y lb]; cbn in Hm; try discriminate.
    cbn [firstn common_records]. f_equal. apply IH. lia.
Qed.

(** X14: Two non-nil slices of one type (without [Equal] method) with distinct
    data pointers, whose elements at common indices are leaves, compare
    to: the record ["slice[i]: x != y"] for each common index where the
    elements differ, then one record against ["<no value>"] for each
    element beyond the shorter slice; the whole cut at [MaxDiff]. *)
Theorem slice_element_records (t : rtype) (pa pb : positive)
        (la lb : list Value) :
  1 <= MaxDiff cfg ->
  1 <= MaxDepth cfg ->
  tyKind t = KSlice ->
  methods t "Equal" = None ->
  pa <> pb ->
  leaf_pairs methods
             (firstn (Nat.min (List.length la) (List.length lb)) la)
             (firstn (Nat.min (List.length la) (List.length lb)) lb) = true ->
  Equal cfg heap methods (Some (VSlice t (Some (pa, la))))
        (Some (VSlice t (Some (pb, lb))))
  = Ok (firstn (Z.to_nat (MaxDiff cfg))
               (slice_records (FloatPrecision cfg) la lb)).
Proof.
  intros HM HD Hk Hm Hp Hleaf.
  set (m := Nat.min (List.length la) (List.length lb)) in *.
  rewrite Equal_slices by (trivial; lia).
  replace (Z.to_nat (MaxDepth cfg - 0))
    with (S (Z.to_nat (MaxDepth cfg - 1)))
    by (rewrite <- Z2Nat.inj_succ by lia; f_equal; lia).
  set (rec := fun x y => equals_rec cfg heap methods
                           (S (Z.to_nat (MaxDepth cfg - 1))) x y (0 + 1)).
  set (k := (Nat.max (List.length la) (List.length lb) - m)%nat).
  replace (if (List.length la <? List.length lb)%nat
           then List.length lb else List.length la)
    with (m + k)%nat
    by (destruct (Nat.ltb_spec (List.length la) (List.length lb)); lia).
  assert (H0 : len (@nil string) < M)
    by (unfold len; simpl; fold M in HM; lia).
  rewrite slice_loop_split by exact H0.
  destruct (slice_loop_common (Z.to_nat (MaxDepth cfg - 1)) 0 HD t pa pb
              la lb (firstn m la) (firstn m lb) [] [] (skipn m la)
              (skipn m lb) 0%nat [] (FloatPrecision cfg) [])
    as (c1 & Hrun & Hd1 & Hb1 & Hf1); trivial;
    try (cbn [app]; now rewrite firstn_skipn).
  assert (Hfm : List.length (firstn m la) = m)
    by (rewrite length_firstn; lia).
  assert (Hfb : List.length (firstn m lb) = m)
    by (rewrite length_firstn; lia).
  rewrite Hfm in Hrun. fold rec in Hrun. rewrite Hrun. cbn [bind].
  cbn [app] in Hd1. change (len (@nil string)) with 0 in Hd1.
  rewrite Z.sub_0_r, common_records_firstn in Hd1 by reflexivity.
  fold M. unfold slice_records.
  set (RC := common_records (FloatPrecision cfg) 0 la lb) in *.
  rewrite firstn_app.
  destruct (Z.geb_spec (len (diff c1)) M) as [Hge | Hlt].
  - assert (Hlong : (Z.to_nat M <= List.length RC)%nat).
    { rewrite Hd1 in Hge. unfold len in Hge.
      rewrite length_firstn in Hge. unfold M. lia. }
    replace (Z.to_nat M - List.length RC)%nat with 0%nat by lia.
    cbn [bind firstn]. now rewrite app_nil_r, Hd1.
  - assert (Hshort : (List.length RC < Z.to_nat M)%nat).
    { rewrite Hd1 in Hlt. unfold len in Hlt.
      rewrite length_firstn in Hlt. unfold M. lia. }
    rewrite (firstn_all2 (n := Z.to_nat M) RC) in * by lia.
    cbn [Nat.add]. unfold trailing_records. fold m.
    destruct (Nat.le_ge_cases (List.length lb) (List.length la)) as [Hl | Hl].
    + destruct (slice_loop_left_only rec t pa pb lb (skipn m la)
                  (firstn m la) m c1) as (c' & Hrun2 & Hdf & _); trivial;
        try lia.
      rewrite firstn_skipn, length_skipn in Hrun2.
      replace (List.length la - m)%nat with k in Hrun2 by lia.
      rewrite Hrun2. cbn [bind].
      rewrite (skipn_all2 (n := m) lb) by lia.
      cbn [indexed List.length seq combine map]. rewrite app_nil_r.
      rewrite Hdf, Hd1. do 3 f_equal. unfold len. lia.
    + destruct (slice_loop_right_only rec t pa pb la (skipn m lb)
                  (firstn m lb) m c1) as (c' & Hrun2 & Hdf & _); trivial;
        try lia.
      rewrite firstn_skipn, length_skipn in Hrun2.
      replace (List.length lb - m)%nat with k in Hrun2 by lia.
      rewrite Hrun2. cbn [bind].
      rewrite (skipn_all2 (n := m) la) by lia.
      cbn [indexed List.length seq combine map app].
      rewrite Hdf, Hd1. do 3 f_equal. unfold len. lia.
Qed.

(** *** Logging does not change the result *)

Section Logging.

Variables cfg1 cfg2 : Config.
Hypothesis same_precision : FloatPrecision cfg1 = FloatPrecision cfg2.
Hypothesis same_cap : MaxDiff cfg1 = MaxDiff cfg2.
Hypothesis same_depth : MaxDepth cfg1 = MaxDepth cfg2.
Hypothesis same_fields :
  CompareUnexportedFields cfg1 = CompareUnexportedFields cfg2.

Lemma sbl_refl (c : cmp) : same_but_log c c.
Proof. repeat split. Qed.

Lemma sbl_push (c1 c2 : cmp) (name : string) :
  same_but_log c1 c2 -> same_but_log (push c1 name) (push c2 name).
Proof. intros (Hd & Hb & Hf). repeat split; cbn; congruence. Qed.

Lemma sbl_pop (c1 c2 : cmp) :
  same_but_log c1 c2 -> same_but_log (pop c1) (pop c2).
Proof.
  intros (Hd & Hb & Hf). unfold pop. rewrite Hb.
  destruct (0 <? len (buff c2)); repeat split; cbn; congruence.
Qed.

Lemma sbl_saveDiff (c1 c2 : cmp) (x y : Operand) :
  same_but_log c1 c2 -> same_but_log (saveDiff c1 x y) (saveDiff c2 x y).
Proof.
  intros (Hd & Hb & Hf). unfold saveDiff. rewrite Hb, Hd.
  destruct (0 <? len (buff c2)); repeat split; cbn; congruence.
Qed.

Lemma sbl_logError (c1 c2 : cmp) (e : error) :
  same_but_log c1 c2 ->
  same_but_log (logError cfg1 c1 e) (logError cfg2 c2 e).
Proof.
  intros H. unfold logError.
  destruct (LogErrors cfg1), (LogErrors cfg2); exact H.
Qed.

Ltac both :=
  match goal with
  | |- agree (bind ?m _) (bind ?m _) =>
      destruct m as [? | ? | ]; cbn [bind];
      [ | exact eq_refl | exact I ]
  | |- agree (if ?b then _ else _) (if ?b then _ else _) => destruct b
  end.

Ltac related :=
  cbn [agree];
  auto using sbl_refl, sbl_push, sbl_pop, sbl_saveDiff, sbl_logError.

Section LoopsAgree.

Variables rec1 rec2 : rValue -> rValue -> cmp -> res cmp.
Hypothesis rec_agree :
  forall x y c1 c2, same_but_log c1 c2 -> agree (rec1 x y c1) (rec2 x y c2).

(** After the body of an iteration: pop, test the cap, go on. *)
Lemma iteration_agree (r1 r2 : res cmp) (k1 k2 : cmp -> res cmp) :
  agree r1 r2 ->
  (forall c1 c2, same_but_log c1 c2 -> agree (k1 c1) (k2 c2)) ->
  agree (c <- r1 ;;
         if len (diff (pop c)) >=? MaxDiff cfg1 then Ok (pop c)
         else k1 (pop c))
        (c <- r2 ;;
         if len (diff (pop c)) >=? MaxDiff cfg2 then Ok (pop c)
         else k2 (pop c)).
Proof.
  intros Hr Hk.
  destruct r1 as [c1 | m1 |], r2 as [c2 | m2 |]; cbn [agree bind] in *;
    trivial; try contradiction.
  pose proof (sbl_pop c1 c2 Hr) as Hp.
  destruct Hp as (Hd & Hrest). rewrite Hd, same_cap.
  destruct (len (diff (pop c2)) >=? MaxDiff cfg2).
  - cbn [agree]. now split.
  - apply Hk. now split.
Qed.

Lemma struct_loop_agree (a b : Value) (t : rtype) :
  forall todo i c1 c2,
    same_but_log c1 c2 ->
    agree (struct_loop cfg1 rec1 a b t todo i c1)
          (struct_loop cfg2 rec2 a b t todo i c2).
Proof.
  induction todo as [| todo IH]; intros i c1 c2 Hs; cbn [struct_loop].
  - exact Hs.
  - both. rewrite same_fields. both; [now apply IH |].
    both. both.
    apply (iteration_agree _ _
             (fun c => struct_loop cfg1 rec1 a b t todo (S i) c)
             (fun c => struct_loop cfg2 rec2 a b t todo (S i) c)).
    + apply rec_agree. now apply sbl_push.
    + intros. now apply IH.
Qed.

Lemma slice_loop_agree (a b : Value) (aLen bLen : nat) :
  forall todo i c1 c2,
    same_but_log c1 c2 ->
    agree (slice_loop cfg1 rec1 a b aLen bLen todo i c1)
          (slice_loop cfg2 rec2 a b aLen bLen todo i c2).
Proof.
  induction todo as [| todo IH]; intros i c1 c2 Hs; cbn [slice_loop].
  - exact Hs.
  - apply (iteration_agree _ _
             (fun c => slice_loop cfg1 rec1 a b aLen bLen todo (S i) c)
             (fun c => slice_loop cfg2 rec2 a b aLen bLen todo (S i) c)).
    + destruct ((i <? aLen)%nat && (i <? bLen)%nat).
      * both. both. apply rec_agree. now apply sbl_push.
      * destruct (i <? aLen)%nat; both; related.
    + intros. now apply IH.
Qed.

Lemma map_loop_b_agree (a b : Value) :
  forall keys c1 c2,
    same_but_log c1 c2 ->
    agree (map_loop_b cfg1 a b keys c1) (map_loop_b cfg2 a b keys c2).
Proof.
  induction keys as [| key keys IH]; intros c1 c2 Hs; cbn [map_loop_b].
  - exact Hs.
  - both. both; [now apply IH |]. both.
    apply (iteration_agree (Ok _) (Ok _)
             (fun c => map_loop_b cfg1 a b keys c)
             (fun c => map_loop_b cfg2 a b keys c)).
    + related.
    + intros. now apply IH.
Qed.

Lemma map_loop_a_agree (a b : Value) :
  forall keys c1 c2,
    same_but_log c1 c2 ->
    agree_flow (map_loop_a cfg1 rec1 a b keys c1)
               (map_loop_a cfg2 rec2 a b keys c2).
Proof.
  induction keys as [| key keys IH]; intros c1 c2 Hs; cbn [map_loop_a].
  - cbn. now split.
  - destruct (MapIndex a key) as [aVal | |]; cbn [bind agree_flow]; trivial.
    destruct (MapIndex b key) as [bVal | |]; cbn [bind agree_flow]; trivial.
    assert (Hbody :
              agree (if IsValid bVal
                     then rec1 aVal bVal (push c1 (map_seg key))
                     else Ok (saveDiff (push c1 (map_seg key)) (OValue aVal)
                                       (OString "<does not have key>")))
                    (if IsValid bVal
                     then rec2 aVal bVal (push c2 (map_seg key))
                     else Ok (saveDiff (push c2 (map_seg key)) (OValue aVal)
                                       (OString "<does not have key>")))).
    { destruct (IsValid bVal); [apply rec_agree | ]; related. }
    match type of Hbody with
    | agree ?r1 ?r2 =>
        destruct r1 as [d1 | m1 |], r2 as [d2 | m2 |]
    end; cbn [agree bind agree_flow] in *; trivial; try contradiction.
    pose proof (sbl_pop d1 d2 Hbody) as Hp.
    destruct Hp as (Hd & Hrest). rewrite Hd, same_cap.
    destruct (len (diff (pop d2)) >=? MaxDiff cfg2).
    + cbn. split; trivial. now split.
    + apply IH. now split.
Qed.

Lemma dispatch_agree (a b : Value) (aKind : Kind) (aType : rtype) :
  forall c1 c2,
    same_but_log c1 c2 ->
    agree (dispatch cfg1 rec1 a b aKind aType c1)
          (dispatch cfg2 rec2 a b aKind aType c2).
Proof.
  intros c1 c2 Hs.
  assert (Hf : floatFormat c1 = floatFormat c2) by apply Hs.
  destruct aKind; cbn [dispatch]; try rewrite Hf;
    try (repeat both; related; fail).
  - (* map *)
    both. both. both; [repeat both; related |].
    both. both. both; [related |]. both.
    pose proof (map_loop_a_agree a b x3 c1 c2 Hs) as Ha.
    destruct (map_loop_a cfg1 rec1 a b x3 c1) as [[f1 d1] | m1 |],
             (map_loop_a cfg2 rec2 a b x3 c2) as [[f2 d2] | m2 |];
      cbn [agree_flow bind agree] in *; trivial; try contradiction.
    destruct Ha as (-> & Hd). destruct f2; [| exact Hd].
    both. now apply map_loop_b_agree.
  - (* slice *)
    both. both. both; [repeat both; related |].
    both. both. both; [related |]. both. both.
    now apply slice_loop_agree.
  - (* struct *)
    both. now apply struct_loop_agree.
Qed.

End LoopsAgree.

Lemma equals_rec_agree :
  forall fuel a b level c1 c2,
    same_but_log c1 c2 ->
    agree (equals_rec cfg1 heap methods fuel a b level c1)
          (equals_rec cfg2 heap methods fuel a b level c2).
Proof.
  induction fuel as [| fuel IH]; intros a b level c1 c2 Hs;
    cbn [equals_rec]; rewrite same_depth;
    destruct (level >? MaxDepth cfg2); try (related; fail).
  both. both. both; [related |].
  both. both.
  destruct x1 as [[a' aKind] aType], x2 as [[b' bKind] bType].
  destruct a' as [av |], b' as [bv |]; try (related; fail).
  destruct (MethodByName methods av "Equal") as [eqFunc |].
  - repeat both; related.
  - apply dispatch_agree; trivial.
    intros u v d1 d2 Hd. now apply IH.
Qed.

End Logging.

(** X15: The log is a side channel: two configurations that differ at most in
    [LogErrors] give the same result of [Equal], differences and panics
    alike. *)
Theorem logging_does_not_change_result (cfg1 cfg2 : Config) (a b : rValue) :
  FloatPrecision cfg1 = FloatPrecision cfg2 ->
  MaxDiff cfg1 = MaxDiff cfg2 ->
  MaxDepth cfg1 = MaxDepth cfg2 ->
  CompareUnexportedFields cfg1 = CompareUnexportedFields cfg2 ->
  Equal cfg1 heap methods a b = Equal cfg2 heap methods a b.
Proof.
  intros HP HM HD HU. unfold Equal, equals. rewrite HP, HD.
  pose proof (equals_rec_agree cfg1 cfg2 HM HD HU
                (Z.to_nat (MaxDepth cfg2 - 0 + 1)) a b 0
                (mkCmp [] [] (FloatPrecision cfg2) [])
                (mkCmp [] [] (FloatPrecision cfg2) [])
                (sbl_refl _)) as H.
  destruct (equals_rec cfg1 heap methods _ a b 0 _) as [c1 | m1 |],
           (equals_rec cfg2 heap methods _ a b 0 _) as [c2 | m2 |];
    cbn [agree bind] in *; try contradiction; trivial.
  - destruct H as (-> & _). reflexivity.
  - now subst.
Qed.

End Properties.

(** * Closed instances *)

(** C1, as stated, fails: a value of [type Never int], whose [Equal]
    method answers [false], differs from itself. *)
Lemma Never_differs_from_itself :
  @Equal defaults flat_heap never_methods goFmt
         (Some (VInt tNever 1)) (Some (VInt tNever 1)) = Ok ["1 != 1"%string]
  /\ @Equal defaults flat_heap never_methods goFmt
            (Some (VInt tNever 1)) (Some (VInt tNever 1)) <> Ok [].
Proof. split; [reflexivity | discriminate]. Qed.

(** An event whose time stamp has a reflexive [Equal] method, compared
    with itself: the method is reached through the exported field [At]. *)
Lemma Equal_reflexive_witness :
  wf_heap flat_heap
  /\ wf launch = true
  /\ stamp_methods tStamp "Equal" = Some stamp_equal
  /\ reflexive_walk defaults flat_heap stamp_methods
                    (Z.to_nat (MaxDepth defaults + 1)) false launch
  /\ @Equal defaults flat_heap stamp_methods goFmt (Some launch) (Some launch)
     = Ok [].
Proof.
  assert (H1 : wf_heap flat_heap) by (intros p; reflexivity).
  assert (H2 : wf launch = true) by reflexivity.
  assert (H3 : reflexive_walk defaults flat_heap stamp_methods
                              (Z.to_nat (MaxDepth defaults + 1)) false launch).
  { change (Z.to_nat (MaxDepth defaults + 1)) with 11%nat.
    cbn [reflexive_walk].
    change (unwrap flat_heap (Some launch) (Kind_ (Some launch))
                   (TypeOfValue launch))
      with (@Ok (rValue * Kind * rtype) (Some launch, KStruct, tEvent)).
    cbn beta iota.
    change (stamp_methods (TypeOfValue launch) "Equal") with (@None Method).
    cbn beta iota. unfold launch at 1. cbn beta iota.
    intros i f fx Hf Hv Hx.
    destruct i as [| [| i]]; cbn in Hf, Hx.
    - inversion Hf; inversion Hx; subst. vm_compute.
      split; [reflexivity |]. eexists. eexists. split; reflexivity.
    - inversion Hf; inversion Hx; subst. vm_compute. exact I.
    - destruct i; discriminate Hf. }
  exact (conj H1 (conj H2 (conj eq_refl (conj H3
           (@Equal_reflexive defaults flat_heap stamp_methods goFmt
              launch H1 H2 H3))))).
Defined.

Lemma type_mismatch_single_diff_witness :
  TypeOfValue (VInt tInt 1) <> TypeOfValue (VString tString "1")
  /\ 0 <= MaxDepth defaults
  /\ @Equal defaults flat_heap no_methods goFmt
            (Some (VInt tInt 1)) (Some (VString tString "1"))
     = Ok ["int != string"%string].
Proof.
  assert (H1 : TypeOfValue (VInt tInt 1) <> TypeOfValue (VString tString "1"))
    by discriminate.
  assert (H2 : 0 <= MaxDepth defaults) by (simpl; lia).
  exact (conj H1 (conj H2
           (proj1 (@type_mismatch_single_diff defaults flat_heap no_methods
                     goFmt (VInt tInt 1) (VString tString "1") H1 H2)))).
Defined.

(** C3, as stated, fails: with [MaxDepth = 0] the fields of two records
    are never compared, so three differing fields against a cap of 2 give
    no difference at all. *)
Lemma flat_records_at_depth_zero :
  MaxDiff (mkConfig 10 2 0 false false) <= 3
  /\ @Equal (mkConfig 10 2 0 false false) flat_heap no_methods goFmt
            (Some (VStruct tTriple (ints [1; 2; 3])))
            (Some (VStruct tTriple (ints [4; 5; 6]))) = Ok []
  /\ len (@nil string) <> MaxDiff (mkConfig 10 2 0 false false).
Proof. split; [simpl; lia |]. split; [reflexivity | discriminate]. Qed.

Lemma diff_cap_witness :
  1 <= MaxDiff (mkConfig 10 2 10 false false)
  /\ exists l,
      @Equal (mkConfig 10 2 10 false false) flat_heap no_methods goFmt
             (Some (VStruct tTriple (ints [1; 2; 3])))
             (Some (VStruct tTriple (ints [4; 5; 6]))) = Ok l
      /\ len l = 2.
Proof.
  assert (H : 1 <= MaxDiff (mkConfig 10 2 10 false false)) by (simpl; lia).
  split; [exact H |].
  refine (proj2 (@diff_cap (mkConfig 10 2 10 false false) flat_heap
                   no_methods goFmt H)
                tTriple (ints [1; 2; 3]) (ints [4; 5; 6])
                _ eq_refl eq_refl eq_refl _).
  - simpl; lia.
  - vm_compute; discriminate.
Defined.

(** C5, as stated, fails: two maps that hold the same value of
    [type Never int] under the key they share give a record for that key,
    because the [Equal] method of the values answers [false]. *)
Lemma equal_values_under_common_key_differ :
  lookup_key (VString tString "k") map_never = Some (VInt tNever 1)
  /\ @Equal defaults flat_heap never_methods goFmt
            (Some (VMap tMapStringNever (Some (1%positive, map_never))))
            (Some (VMap tMapStringNever (Some (2%positive, map_never))))
     = Ok ["map[k]: 1 != 1"%string].
Proof. split; reflexivity. Qed.

(** Maps with a key on the left only, a key on the right only, a common
    key with different values and a common key with one value. *)
Lemma map_keys_coverage_witness :
  @Equal defaults flat_heap no_methods goFmt
         (Some (VMap tMapStringInt (Some (1%positive, map_abe))))
         (Some (VMap tMapStringInt (Some (2%positive, map_ace))))
  = Ok ["map[a]: 1 != 3"; "map[b]: 2 != <does not have key>";
        "map[c]: <does not have key> != 4"]%string
  /\ len ["map[a]: 1 != 3"; "map[b]: 2 != <does not have key>";
          "map[c]: <does not have key> != 4"]%string < MaxDiff defaults
  /\ exists exts,
      ["map[a]: 1 != 3"; "map[b]: 2 != <does not have key>";
       "map[c]: <does not have key> != 4"]%string
      = List.concat exts
        ++ map (@right_key_record goFmt map_ace) (only_in map_ace map_abe)
      /\ Forall2 (@key_contribution goFmt defaults flat_heap no_methods
                                    map_abe map_ace)
                 (map fst map_abe) exts.
Proof.
  assert (H1 : @Equal defaults flat_heap no_methods goFmt
                      (Some (VMap tMapStringInt (Some (1%positive, map_abe))))
                      (Some (VMap tMapStringInt (Some (2%positive, map_ace))))
               = Ok ["map[a]: 1 != 3"; "map[b]: 2 != <does not have key>";
                     "map[c]: <does not have key> != 4"]%string)
    by reflexivity.
  assert (H2 : len ["map[a]: 1 != 3"; "map[b]: 2 != <does not have key>";
                    "map[c]: <does not have key> != 4"]%string
               < MaxDiff defaults) by reflexivity.
  assert (H3 : 0 <= MaxDepth defaults) by (simpl; lia).
  assert (H4 : 1%positive <> 2%positive) by discriminate.
  assert (H5 : wf_heap flat_heap) by (intros p; reflexivity).
  split; [exact H1 |]. split; [exact H2 |].
  pose proof (@map_keys_coverage defaults flat_heap no_methods goFmt
                tMapStringInt 1%positive 2%positive map_abe map_ace
                H3 eq_refl eq_refl H4 H5) as [H _].
  rewrite H1 in H. exact (H H2).
Defined.

(** C6 fails on the code: two slices of one array, [s[:2]] and [s[:3]],
    have the same data pointer, so [equals] returns at the identity test
    of lines 237-239 and [Equal] finds them equal, although the second
    has one more element, for which the claim (and the loop that follows
    the test) has one record against ["<no value>"]: the record that the
    same elements give when the second slice is a copy. *)
Lemma shared_pointer_slices_equal :
  Nat.lt (List.length (ints [1; 2])) (List.length (ints [1; 2; 3]))
  /\ @Equal defaults flat_heap no_methods goFmt
            (Some (VSlice tSliceInt (Some (1%positive, ints [1; 2]))))
            (Some (VSlice tSliceInt (Some (1%positive, ints [1; 2; 3]))))
     = Ok []
  /\ @Equal defaults flat_heap no_methods goFmt
            (Some (VSlice tSliceInt (Some (1%positive, ints [1; 2]))))
            (Some (VSlice tSliceInt (Some (2%positive, ints [1; 2; 3]))))
     = Ok ["slice[2]: <no value> != 3"%string].
Proof.
  split; [unfold Nat.lt; simpl; lia |]. split; reflexivity.
Qed.

(** Arrays have no case in the switch: two arrays that differ compare as
    equal. *)
Example arrays_are_not_walked :
  @Equal defaults flat_heap no_methods goFmt
         (Some (VArray tArray2Int (ints [1; 2])))
         (Some (VArray tArray2Int (ints [1; 3]))) = Ok [].
Proof. reflexivity. Qed.

Lemma slices_cover_longer_witness :
  1%positive <> 2%positive
  /\ @Equal defaults flat_heap no_methods goFmt
            (Some (VSlice tSliceInt (Some (1%positive, ints [1; 2; 3]))))
            (Some (VSlice tSliceInt (Some (2%positive, ints [1; 5]))))
     = Ok ["slice[1]: 2 != 5"; "slice[2]: 3 != <no value>"]%string.
Proof.
  assert (H : 1%positive <> 2%positive) by discriminate.
  split; [exact H |].
  refine (eq_trans
            (proj1 (@slices_cover_longer defaults flat_heap no_methods goFmt
                      tSliceInt 1%positive 2%positive
                      (ints [1; 2; 3]) (ints [1; 5])
                      _ _ eq_refl eq_refl H)) _).
  - simpl; lia.
  - simpl; lia.
  - reflexivity.
Defined.

Lemma Equal_method_decides_witness :
  never_methods (TypeOfValue (VInt tNever 1)) "Equal" = Some always_false
  /\ always_false (VInt tNever 1) [VInt tNever 1] = inl [VBool tBool false]
  /\ @equals defaults flat_heap never_methods goFmt
             (Some (VInt tNever 1)) (Some (VInt tNever 1)) 1 busy_cmp
     = Ok (mkCmp ["x"; "p: 1 != 1"]%string ["p"%string] 10 []).
Proof.
  split; [reflexivity |]. split; [reflexivity |].
  refine (proj1 (proj2
            (@Equal_method_decides defaults flat_heap never_methods
               goFmt (VInt tNever 1) (VInt tNever 1)
               (VInt tNever 1) (VInt tNever 1) KInt KInt tNever tNever
               always_false 1 busy_cmp
               _ (or_intror eq_refl) eq_refl eq_refl eq_refl eq_refl))
            tBool [] eq_refl).
  simpl; lia.
Defined.

(** C8, as stated, fails: for a non-nil [*int] against a nil [*int] the
    record shows the type of the present value, not the value (0 here). *)
Lemma nil_pointer_shows_type :
  @Equal defaults flat_heap no_methods goFmt
         (Some (VPtr tPtrInt (Some 1%positive))) (Some (VPtr tPtrInt None))
  = Ok ["int != <nil pointer>"%string]
  /\ @Equal defaults flat_heap no_methods goFmt
            (Some (VPtr tPtrInt (Some 1%positive))) (Some (VPtr tPtrInt None))
     <> Ok [(show_operand (OValue (Some (flat_heap 1%positive)))
               ++ " != <nil pointer>")%string].
Proof. split; [reflexivity | discriminate]. Qed.

Lemma nil_pointer_diff_witness :
  0 <= MaxDepth defaults
  /\ @equals defaults flat_heap no_methods goFmt
             (Some (VPtr tPtrInt (Some 1%positive)))
             (Some (VPtr tPtrInt None)) 0 (empty_cmp defaults)
     = Ok (@saveDiff goFmt (empty_cmp defaults) (OType tInt)
                     (OString "<nil pointer>")).
Proof.
  assert (H : 0 <= MaxDepth defaults) by (simpl; lia).
  split; [exact H |].
  exact (proj1 (@nil_pointer_diff defaults flat_heap no_methods goFmt
                  (VPtr tPtrInt (Some 1%positive)) (VPtr tPtrInt None)
                  0 (empty_cmp defaults) H eq_refl)
               (VInt tInt 0) KInt tInt KInvalid tPtrInt eq_refl eq_refl).
Defined.

Lemma float_compare_witness :
  0 <= MaxDepth defaults
  /\ (tyKind tFloat64 = KFloat32 \/ tyKind tFloat64 = KFloat64)
  /\ @Equal defaults flat_heap no_methods goFmt
            (Some (VFloat tFloat64 (f64_add f64_0_1 f64_0_2)))
            (Some (VFloat tFloat64 f64_0_3))
     = Ok [].
Proof.
  assert (H : 0 <= MaxDepth defaults) by (simpl; lia).
  split; [exact H |]. split; [right; reflexivity |].
  refine (eq_trans
            (proj1 (@float_compare defaults flat_heap no_methods goFmt
                      tFloat64 (f64_add f64_0_1 f64_0_2) f64_0_3
                      show_operand show_key H (or_intror eq_refl) eq_refl))
            _).
  vm_compute. reflexivity.
Defined.

(** C10 fails on the code: [Equal(nil, nil)] panics in [a.Type()], and so
    does the comparison of two [[]interface{}] whose elements have
    different dynamic types, in [b.Int()]. *)
Theorem Equal_panics :
  @Equal defaults flat_heap no_methods goFmt None None
  = Panic "reflect: call of reflect.Value.Type on zero Value"
  /\ @Equal defaults flat_heap no_methods goFmt
            (Some (VSlice tSliceIface
                          (Some (1%positive,
                                 [VIface tIface (Some (VInt tInt 1))]))))
            (Some (VSlice tSliceIface
                          (Some (2%positive,
                                 [VIface tIface (Some (VString tString "a"))]))))
     = Panic "reflect: call of reflect.Value.Int on string Value".
Proof. split; reflexivity. Qed.

(** ** Instances of the further properties *)

Lemma equals_balanced_witness :
  @equals defaults flat_heap no_methods goFmt
          (Some (VInt tInt 1)) (Some (VInt tInt 2)) 0 busy_cmp
  = Ok (mkCmp ["x"; "p: 1 != 2"]%string ["p"%string] 10 [])
  /\ buff (mkCmp ["x"; "p: 1 != 2"]%string ["p"%string] 10 [])
     = buff busy_cmp.
Proof.
  assert (H : @equals defaults flat_heap no_methods goFmt
                      (Some (VInt tInt 1)) (Some (VInt tInt 2)) 0 busy_cmp
              = Ok (mkCmp ["x"; "p: 1 != 2"]%string ["p"%string] 10 []))
    by reflexivity.
  exact (conj H (proj1 (@equals_balanced defaults flat_heap no_methods goFmt
                          _ _ _ _ _ H))).
Defined.

Lemma nil_map_diff_witness :
  0 <= MaxDepth defaults
  /\ @equals defaults flat_heap no_methods goFmt
             (Some (VMap tMapStringInt None))
             (Some (VMap tMapStringInt (Some (1%positive, map_a))))
             0 (empty_cmp defaults)
     = Ok (@saveDiff goFmt (empty_cmp defaults) (OString "<nil map>")
             (OValue (Some (VMap tMapStringInt (Some (1%positive, map_a)))))).
Proof.
  assert (H : 0 <= MaxDepth defaults) by (simpl; lia).
  exact (conj H (proj1 (@nil_map_diff defaults flat_heap no_methods goFmt
                          tMapStringInt (1%positive, map_a) 0
                          (empty_cmp defaults) H eq_refl eq_refl))).
Defined.

Lemma nil_slice_diff_witness :
  0 <= MaxDepth defaults
  /\ @equals defaults flat_heap no_methods goFmt
             (Some (VSlice tSliceInt None))
             (Some (VSlice tSliceInt (Some (1%positive, ints [1]))))
             0 (empty_cmp defaults)
     = Ok (@saveDiff goFmt (empty_cmp defaults) (OString "<nil slice>")
             (OValue (Some (VSlice tSliceInt (Some (1%positive, ints [1])))))).
Proof.
  assert (H : 0 <= MaxDepth defaults) by (simpl; lia).
  exact (conj H (proj1 (@nil_slice_diff defaults flat_heap no_methods goFmt
                          tSliceInt (1%positive, ints [1]) 0
                          (empty_cmp defaults) H eq_refl eq_refl))).
Defined.

Lemma primitive_compare_witness :
  leaf_pair no_methods (VString tString "a") (VString tString "b") = true
  /\ @Equal defaults flat_heap no_methods goFmt
            (Some (VString tString "a")) (Some (VString tString "b"))
     = Ok ["a != b"%string].
Proof.
  split; [reflexivity |].
  refine (eq_trans
            (@primitive_compare defaults flat_heap no_methods goFmt
               (VString tString "a") (VString tString "b") _ eq_refl) _).
  - simpl; lia.
  - reflexivity.
Defined.

Lemma negative_depth_compares_nothing_witness :
  MaxDepth (mkConfig 10 10 (-1) false false) < 0
  /\ @Equal (mkConfig 10 10 (-1) false false) flat_heap no_methods goFmt
            None (Some (VInt tInt 1)) = Ok [].
Proof.
  assert (H : MaxDepth (mkConfig 10 10 (-1) false false) < 0)
    by (simpl; lia).
  exact (conj H (@negative_depth_compares_nothing
                   (mkConfig 10 10 (-1) false false) flat_heap no_methods
                   goFmt None (Some (VInt tInt 1)) H)).
Defined.

Lemma unhandled_kind_equal_witness :
  has_rule KArray = false
  /\ @equals defaults flat_heap no_methods goFmt
             (Some (VArray tArray2Int (ints [1; 2])))
             (Some (VArray tArray2Int (ints [1; 3]))) 0 (empty_cmp defaults)
     = Ok (logError defaults (empty_cmp defaults) ErrNotHandled).
Proof.
  split; [reflexivity |].
  refine (proj1 (@unhandled_kind_equal defaults flat_heap no_methods goFmt
                   (VArray tArray2Int (ints [1; 2]))
                   (VArray tArray2Int (ints [1; 3]))
                   (VArray tArray2Int (ints [1; 2]))
                   (VArray tArray2Int (ints [1; 3]))
                   KArray KArray tArray2Int tArray2Int 0 (empty_cmp defaults)
                   _ eq_refl eq_refl eq_refl eq_refl eq_refl)).
  simpl; lia.
Defined.

Lemma indirection_compared_by_target_witness :
  isIndirect (tyKind (TypeOfValue (cyclic_heap 1%positive))) = false
  /\ @equals defaults cyclic_heap no_methods goFmt
             (Some (VPtr tPtrNode (Some 1%positive)))
             (Some (VPtr tPtrNode (Some 2%positive))) 0 (empty_cmp defaults)
     = @equals defaults cyclic_heap no_methods goFmt
               (Some (cyclic_heap 1%positive)) (Some (cyclic_heap 2%positive))
               0 (empty_cmp defaults).
Proof.
  split; [reflexivity |].
  refine (@indirection_compared_by_target defaults cyclic_heap no_methods
            goFmt (VPtr tPtrNode (Some 1%positive))
            (VPtr tPtrNode (Some 2%positive))
            (cyclic_heap 1%positive) (cyclic_heap 2%positive)
            KStruct KStruct tNode tNode 0 (empty_cmp defaults)
            _ eq_refl eq_refl eq_refl eq_refl eq_refl).
  simpl; lia.
Defined.

Lemma interface_dynamic_types_not_compared_witness :
  tInt <> tInt64
  /\ @equals defaults flat_heap no_methods goFmt
             (Some (VIface tIface (Some (VInt tInt 1))))
             (Some (VIface tIface (Some (VInt tInt64 1)))) 0
             (empty_cmp defaults)
     = Ok (empty_cmp defaults).
Proof.
  split; [discriminate |].
  refine (@interface_dynamic_types_not_compared defaults flat_heap no_methods
            goFmt tIface tInt tInt64 1 1 0 (empty_cmp defaults)
            _ eq_refl eq_refl eq_refl eq_refl).
  simpl; lia.
Defined.

Lemma fields_beyond_depth_unseen_witness :
  MaxDepth (mkConfig 10 10 0 false false) = 0
  /\ @Equal (mkConfig 10 10 0 false false) flat_heap no_methods goFmt
            (Some (VStruct tTriple (ints [1; 2; 3])))
            (Some (VStruct tTriple (ints [4; 5; 6]))) = Ok [].
Proof.
  split; [reflexivity |].
  exact (proj2 (@fields_beyond_depth_unseen
                  (mkConfig 10 10 0 false false) flat_heap no_methods goFmt
                  tTriple (ints [1; 2; 3]) (ints [4; 5; 6])
                  (empty_cmp defaults) eq_refl eq_refl eq_refl eq_refl)
               eq_refl).
Defined.

Lemma struct_field_records_witness :
  fields_are_leaves defaults no_methods (tyFields tPerson)
                    [VString tString "Alice"; VInt tInt 30]
                    [VString tString "Alice"; VInt tInt 31] = true
  /\ @Equal defaults flat_heap no_methods goFmt
            (Some (VStruct tPerson [VString tString "Alice"; VInt tInt 30]))
            (Some (VStruct tPerson [VString tString "Alice"; VInt tInt 31]))
     = Ok ["Age: 30 != 31"%string].
Proof.
  split; [reflexivity |].
  refine (eq_trans
            (@struct_field_records defaults flat_heap no_methods goFmt
               tPerson [VString tString "Alice"; VInt tInt 30]
               [VString tString "Alice"; VInt tInt 31]
               _ _ eq_refl eq_refl eq_refl) _).
  - simpl; lia.
  - simpl; lia.
  - reflexivity.
Defined.

Lemma unexported_fields_ignored_witness :
  forallb (fun f => negb (visible defaults f)) (tyFields tHidden) = true
  /\ @Equal defaults flat_heap no_methods goFmt
            (Some (VStruct tHidden (ints [1])))
            (Some (VStruct tHidden (ints [2]))) = Ok [].
Proof.
  split; [reflexivity |].
  refine (@unexported_fields_ignored defaults flat_heap no_methods goFmt
            tHidden (ints [1]) (ints [2]) _ eq_refl eq_refl eq_refl).
  simpl; lia.
Defined.

Lemma map_value_records_witness :
  forallb (common_leaf no_methods map_ab map_ac) (map fst map_ab) = true
  /\ @Equal defaults flat_heap no_methods goFmt
            (Some (VMap tMapStringInt (Some (1%positive, map_ab))))
            (Some (VMap tMapStringInt (Some (2%positive, map_ac))))
     = Ok ["map[a]: 1 != 3"; "map[b]: 2 != <does not have key>";
           "map[c]: <does not have key> != 4"]%string.
Proof.
  split; [reflexivity |].
  refine (eq_trans
            (@map_value_records defaults flat_heap no_methods goFmt
               tMapStringInt 1%positive 2%positive map_ab map_ac
               _ _ eq_refl eq_refl _ eq_refl) _).
  - simpl; lia.
  - simpl; lia.
  - discriminate.
  - reflexivity.
Defined.

Lemma slice_element_records_witness :
  1%positive <> 2%positive
  /\ @Equal defaults flat_heap no_methods goFmt
            (Some (VSlice tSliceInt (Some (1%positive, ints [1; 2; 3]))))
            (Some (VSlice tSliceInt (Some (2%positive, ints [1; 5]))))
     = Ok ["slice[1]: 2 != 5"; "slice[2]: 3 != <no value>"]%string.
Proof.
  assert (H : 1%positive <> 2%positive) by discriminate.
  split; [exact H |].
  refine (eq_trans
            (@slice_element_records defaults flat_heap no_methods goFmt
               tSliceInt 1%positive 2%positive (ints [1; 2; 3]) (ints [1; 5])
               _ _ eq_refl eq_refl H eq_refl) _).
  - simpl; lia.
  - simpl; lia.
  - reflexivity.
Defined.

Lemma logging_does_not_change_result_witness :
  MaxDepth defaults = MaxDepth (mkConfig 10 10 10 true false)
  /\ @Equal defaults cyclic_heap no_methods goFmt
            (Some (VPtr tPtrNode (Some 1%positive)))
            (Some (VPtr tPtrNode (Some 2%positive)))
     = @Equal (mkConfig 10 10 10 true false) cyclic_heap no_methods goFmt
              (Some (VPtr tPtrNode (Some 1%positive)))
              (Some (VPtr tPtrNode (Some 2%positive))).
Proof.
  split; [reflexivity |].
  exact (@logging_does_not_change_result cyclic_heap no_methods goFmt
           defaults (mkConfig 10 10 10 true false)
           (Some (VPtr tPtrNode (Some 1%positive)))
           (Some (VPtr tPtrNode (Some 2%positive)))
           eq_refl eq_refl eq_refl eq_refl).
Defined.
